(** * Poetic Mirror: the audio response pipeline and the playback controller

    A shallow embedding of [App.tsx] and [services/geminiService.ts].

    The file has three layers.
    - [Platform]: the parts of the browser the program calls ([atob],
      typed arrays, [AudioContext.createBuffer]), written after the
      HTML, ECMAScript, WebIDL and Web Audio standards.
    - [geminiService] and [App]: the program itself, function by function.
      An [async] handler is cut at its [await]s; the pieces are the
      transitions of an event-driven machine ([App.step]) in which the
      handlers in flight are explicit.
    - the properties: the PCM decoder and buffer builder, then the
      invariants of the machine and what the handlers do. *)

From Stdlib Require Import ZArith QArith Qround Lia.
From stdpp Require Import base list strings.

Local Open Scope Z_scope.

(** ** Exceptions and results *)

Inductive Exception :=
| RangeError
| TypeError
| NotSupportedError
| InvalidCharacterError
| Error (message : string).

Inductive Result (A : Type) :=
| Ok (a : A)
| Throw (e : Exception).
Arguments Ok {A} a.
Arguments Throw {A} e.

Global Instance Result_ret : MRet Result := fun A a => Ok a.

Global Instance Result_bind : MBind Result := fun A B k r =>
  match r with
  | Ok a => k a
  | Throw e => Throw e
  end.

(** [for (let i = 0; i < n; i++) body], threading the mutated state. *)
Fixpoint for_from {St} (i n : nat) (body : nat -> St -> St) (s : St) : St :=
  match n with
  | O => s
  | S n' => for_from (S i) n' body (body i s)
  end.

Definition for_upto {St} (n : nat) (body : nat -> St -> St) (s : St) : St :=
  for_from 0 n body s.

(** ** The browser *)

Module Platform.

(** *** Strings

    A string is its sequence of code units; the model has the code units
    below 256, which is all that [atob] accepts or returns. *)

Definition code_units (s : string) : list Z :=
  (fun c => Z.of_N (Ascii.N_of_ascii c)) <$> String.list_ascii_of_string s.

Definition of_code_units (l : list Z) : string :=
  String.string_of_list_ascii ((fun c => Ascii.ascii_of_N (Z.to_N c)) <$> l).

(** ECMAScript WhiteSpace and LineTerminator, below 256. *)
Definition is_js_whitespace (c : Z) : bool :=
  ((9 <=? c) && (c <=? 13)) || (c =? 32) || (c =? 160).

Fixpoint drop_while {A} (p : A -> bool) (l : list A) : list A :=
  match l with
  | [] => []
  | x :: l' => if p x then drop_while p l' else l
  end.

(** [String.prototype.trim], on code units. *)
Definition trim (s : list Z) : list Z :=
  rev (drop_while is_js_whitespace (rev (drop_while is_js_whitespace s))).

(** *** [atob]: the forgiving-base64 decode of the HTML standard *)

Definition is_ascii_whitespace (c : Z) : bool :=
  (c =? 9) || (c =? 10) || (c =? 12) || (c =? 13) || (c =? 32).

Definition base64_value (c : Z) : option Z :=
  if (65 <=? c) && (c <=? 90) then Some (c - 65)
  else if (97 <=? c) && (c <=? 122) then Some (c - 71)
  else if (48 <=? c) && (c <=? 57) then Some (c + 4)
  else if c =? 43 then Some 62
  else if c =? 47 then Some 63
  else None.

(** Step 2: when the length is a multiple of four, one or two trailing
    [=] are removed. *)
Definition strip_padding (l : list Z) : list Z :=
  if (Z.of_nat (length l) mod 4 =? 0) then
    match rev l with
    | 61 :: 61 :: r => rev r
    | 61 :: r => rev r
    | _ => l
    end
  else l.

(** Step 4: every remaining code unit must be in the alphabet. *)
Fixpoint sextets (l : list Z) : option (list Z) :=
  match l with
  | [] => Some []
  | c :: l' =>
      match base64_value c, sextets l' with
      | Some v, Some vs => Some (v :: vs)
      | _, _ => None
      end
  end.

(** Steps 3 and 5 to 7: four sextets give three bytes; two left over give
    one byte and three give two (the spare bits are dropped); one left
    over is a failure. *)
Fixpoint octets (vs : list Z) : option (list Z) :=
  match vs with
  | [] => Some []
  | [_] => None
  | [a; b] => Some [Z.lor (Z.shiftl a 2) (Z.shiftr b 4)]
  | [a; b; c] =>
      Some [Z.lor (Z.shiftl a 2) (Z.shiftr b 4);
            Z.lor (Z.shiftl (Z.land b 15) 4) (Z.shiftr c 2)]
  | a :: b :: c :: d :: vs' =>
      match octets vs' with
      | Some bs =>
          Some (Z.lor (Z.shiftl a 2) (Z.shiftr b 4)
                :: Z.lor (Z.shiftl (Z.land b 15) 4) (Z.shiftr c 2)
                :: Z.lor (Z.shiftl (Z.land c 3) 6) d
                :: bs)
      | None => None
      end
  end.

(** [atob(s)]: the binary string, as code units, or InvalidCharacterError. *)
Definition atob (s : string) : Result (list Z) :=
  let data := filter (fun c => is_ascii_whitespace c = false) (code_units s) in
  match sextets (strip_padding data) with
  | None => Throw InvalidCharacterError
  | Some vs =>
      match octets vs with
      | None => Throw InvalidCharacterError
      | Some bs => Ok bs
      end
  end.

(** *** Typed arrays *)

(** Storing a number in a [Uint8Array] element. *)
Definition ToUint8 (c : Z) : Z := c mod 256.

(** Two's complement reading of 16 bits. *)
Definition ToInt16 (u : Z) : Z := (u + 32768) mod 65536 - 32768.

(** The elements of an [Int16Array] view: little-endian pairs of bytes. *)
Fixpoint int16_elements (bytes : list Z) : list Z :=
  match bytes with
  | lo :: hi :: rest => ToInt16 (Z.lor lo (Z.shiftl hi 8)) :: int16_elements rest
  | _ => []
  end.

(** [new Int16Array(buffer)]: a RangeError unless the byte length of the
    buffer is a multiple of the element size. *)
Definition Int16Array_of_buffer (bytes : list Z) : Result (list Z) :=
  if Nat.even (length bytes) then Ok (int16_elements bytes) else Throw RangeError.

(** *** Numbers stored in a [Float32Array] *)

Inductive Number :=
| Fin (q : Q)
| NaN.

(** [x / 32768.0] for an element [x] read from an [Int16Array];
    [undefined], read past the end, gives NaN. *)
Definition div_32768 (x : option Z) : Number :=
  match x with
  | Some s => Fin (inject_Z s / 32768)
  | None => NaN
  end.

(** *** Web Audio *)

Inductive ContextState := suspended | running.

(** What an implementation supports is its own choice, within the bounds
    the standard gives (at least 32 channels, at least 8000 to 96000 Hz). *)
Record AudioContext := {
  state : ContextState;
  maxChannels : nat;
  minSampleRate : Z;
  maxSampleRate : Z;
}.

Record AudioBuffer := {
  sampleRate : Z;
  channels : list (list Number);
}.

(** WebIDL conversion of a number to [unsigned long]: truncate, then
    reduce modulo 2^32. The numbers converted here are never negative. *)
Definition to_unsigned_long (x : Q) : Z := Qfloor x mod 2 ^ 32.

(** [ctx.createBuffer(numberOfChannels, length, sampleRate)]: a
    NotSupportedError when an argument is zero or outside its range,
    otherwise [numberOfChannels] channels of [length] zeros. *)
Definition createBuffer (ctx : AudioContext) (numberOfChannels : nat)
    (length : Q) (rate : Z) : Result AudioBuffer :=
  let frames := to_unsigned_long length in
  if (0 <? frames)
     && (0 <? Z.of_nat numberOfChannels)
     && (Z.of_nat numberOfChannels <=? Z.of_nat (maxChannels ctx))
     && (minSampleRate ctx <=? rate) && (rate <=? maxSampleRate ctx)
  then Ok {| sampleRate := rate;
             channels := replicate numberOfChannels (replicate (Z.to_nat frames) (Fin 0)) |}
  else Throw NotSupportedError.

(** The limits of a common implementation, for the examples. *)
Definition a_context : AudioContext :=
  {| state := suspended; maxChannels := 32;
     minSampleRate := 3000; maxSampleRate := 768000 |}.

End Platform.

(** ** What the program does to the outside, in order *)

Inductive Effect :=
| NewAudioContext                              (* new AudioContext({ sampleRate: 24000 }) *)
| Resume                                       (* audioContext.resume() *)
| GenerateText (contents : string)             (* generateContent, model gemini-2.5-flash *)
| GenerateSpeech (text voiceName : string)     (* generateContent, model gemini-2.5-flash-preview-tts *)
| CreateBufferSource (id : nat)
| Connect (id : nat)
| Start (id : nat)
| Stop (id : nat)
| Disconnect (id : nat)
| ConsoleError (e : Exception).

(** ** services/geminiService.ts *)

Module geminiService.

(** The response of [ai.models.generateContent], as far as it is read. *)
Record Blob := { data : option string }.
Record Part := { inlineData : option Blob }.
Record Content := { parts : option (list Part) }.
Record Candidate := { content : option Content }.
Record GenerateContentResponse := {
  candidates : option (list Candidate);
  text : option string;
}.

(** [getReflection], up to its [await]: the one request it sends. *)
Definition getReflection_request (userInput : string) : list Effect :=
  [GenerateText userInput].

(** [response.text.trim()]; a TypeError when [text] is undefined. *)
Definition text_trim (response : GenerateContentResponse) : Result string :=
  match text response with
  | Some t =>
      Ok (Platform.of_code_units (Platform.trim (Platform.code_units t)))
  | None => Throw TypeError
  end.

(** [getReflection], from the [await] on: [outcome] is how the request
    settled. *)
Definition getReflection (outcome : Result GenerateContentResponse)
  : Result string * list Effect :=
  match outcome ≫= text_trim with
  | Ok t => (Ok t, [])
  | Throw error =>
      (Throw (Error "Failed to get reflection from Gemini API."), [ConsoleError error])
  end.

Definition getSpokenReflection_request (text voiceName : string) : list Effect :=
  [GenerateSpeech text voiceName].

(** [response.candidates?.[0]?.content?.parts?.[0]?.inlineData?.data] *)
Definition inline_audio (response : GenerateContentResponse) : option string :=
  cs ← candidates response;
  c ← cs !! 0%nat;
  co ← content c;
  ps ← parts co;
  p ← ps !! 0%nat;
  b ← inlineData p;
  data b.

(** [!base64Audio]: undefined and the empty string are falsy. *)
Definition falsy (s : option string) : bool :=
  match s with
  | None => true
  | Some s => bool_decide (s = "")
  end.

(** [getSpokenReflection], from the [await] on. The error thrown for a
    missing payload is thrown inside the [try], so it is caught there like
    a rejected request and replaced by the same error. *)
Definition getSpokenReflection (outcome : Result GenerateContentResponse)
  : Result string * list Effect :=
  let body :=
    response ← outcome;
    let base64Audio := inline_audio response in
    if falsy base64Audio then Throw (Error "No audio data returned from API.")
    else Ok (default "" base64Audio) in
  match body with
  | Ok base64Audio => (Ok base64Audio, [])
  | Throw error =>
      (Throw (Error "Failed to get spoken reflection from Gemini API."), [ConsoleError error])
  end.

End geminiService.

(** ** App.tsx *)

Module App.

Import Platform.

(** *** The two helpers (lines 9-37) *)

(** [binaryString.charCodeAt(i)]; NaN past the end, which a [Uint8Array]
    stores as 0. *)
Definition charCodeAt (binaryString : list Z) (i : nat) : Z :=
  default 0 (binaryString !! i).

Definition decode (base64 : string) : Result (list Z) :=
  binaryString ← atob base64;
  let len := length binaryString in
  let bytes := replicate len 0 in
  mret (for_upto len
          (fun i bytes => <[i := ToUint8 (charCodeAt binaryString i)]> bytes)
          bytes).

(** [buffer.getChannelData(channel)[i] = v]: the channel array is a view
    of the buffer, and a store past its end is ignored. *)
Definition store_sample (channel i : nat) (v : Number) (buffer : AudioBuffer) : AudioBuffer :=
  {| sampleRate := sampleRate buffer;
     channels := alter (fun channelData => <[i := v]> channelData) channel (channels buffer) |}.

(** The bound of the inner loop: [i < frameCount] for a counter [i] holds
    for the first [ceiling frameCount] values of [i]. *)
Definition iterations (frameCount : Q) : nat := Z.to_nat (Qceiling frameCount).

(** [dataInt16.length / numChannels]: a quotient of numbers, not an
    integer division. (For [numChannels = 0] the quotient is not a count
    of frames in JavaScript either, and [createBuffer] refuses.) *)
Definition frame_count (dataInt16 : list Z) (numChannels : nat) : Q :=
  (inject_Z (Z.of_nat (length dataInt16)) / inject_Z (Z.of_nat numChannels))%Q.

Definition decodeAudioData (data : list Z) (ctx : AudioContext)
    (sampleRate : Z) (numChannels : nat) : Result AudioBuffer :=
  dataInt16 ← Int16Array_of_buffer data;
  let frameCount := frame_count dataInt16 numChannels in
  buffer ← createBuffer ctx numChannels frameCount sampleRate;
  mret (for_upto numChannels
          (fun channel buffer =>
             for_upto (iterations frameCount)
               (fun i buffer =>
                  store_sample channel i
                    (div_32768 (dataInt16 !! (i * numChannels + channel)%nat))
                    buffer)
               buffer)
          buffer).

(** *** The component

    The React state of [App], its two refs, and the audio graph the refs
    point into. A source node is named by its position in [nodes]. *)

Record UI := {
  userInput : string;
  reflection : string;
  isLoading : bool;
  error : option string;
  isSpeaking : bool;
  isFetchingAudio : bool;
  selectedVoice : string;
}.

Inductive Playback := unscheduled | playing | stopped | ended.

Record SourceNode := {
  buffer : option AudioBuffer;
  connected : bool;        (* connected to audioContext.destination *)
  onended : bool;          (* the handler of lines 106-109 is installed *)
  playback : Playback;
}.

Record Component := {
  ui : UI;
  audioContextRef : option AudioContext;
  audioSourceRef : option nat;
  nodes : list SourceNode;
  trace : list Effect;
}.

Definition setUserInput (v : string) (st : Component) : Component :=
  {| ui := {| userInput := v; reflection := reflection (ui st);
              isLoading := isLoading (ui st); error := error (ui st);
              isSpeaking := isSpeaking (ui st);
              isFetchingAudio := isFetchingAudio (ui st);
              selectedVoice := selectedVoice (ui st) |};
     audioContextRef := audioContextRef st; audioSourceRef := audioSourceRef st;
     nodes := nodes st; trace := trace st |}.

Definition setReflection (v : string) (st : Component) : Component :=
  {| ui := {| userInput := userInput (ui st); reflection := v;
              isLoading := isLoading (ui st); error := error (ui st);
              isSpeaking := isSpeaking (ui st);
              isFetchingAudio := isFetchingAudio (ui st);
              selectedVoice := selectedVoice (ui st) |};
     audioContextRef := audioContextRef st; audioSourceRef := audioSourceRef st;
     nodes := nodes st; trace := trace st |}.

Definition setIsLoading (v : bool) (st : Component) : Component :=
  {| ui := {| userInput := userInput (ui st); reflection := reflection (ui st);
              isLoading := v; error := error (ui st);
              isSpeaking := isSpeaking (ui st);
              isFetchingAudio := isFetchingAudio (ui st);
              selectedVoice := selectedVoice (ui st) |};
     audioContextRef := audioContextRef st; audioSourceRef := audioSourceRef st;
     nodes := nodes st; trace := trace st |}.

Definition setError (v : option string) (st : Component) : Component :=
  {| ui := {| userInput := userInput (ui st); reflection := reflection (ui st);
              isLoading := isLoading (ui st); error := v;
              isSpeaking := isSpeaking (ui st);
              isFetchingAudio := isFetchingAudio (ui st);
              selectedVoice := selectedVoice (ui st) |};
     audioContextRef := audioContextRef st; audioSourceRef := audioSourceRef st;
     nodes := nodes st; trace := trace st |}.

Definition setIsSpeaking (v : bool) (st : Component) : Component :=
  {| ui := {| userInput := userInput (ui st); reflection := reflection (ui st);
              isLoading := isLoading (ui st); error := error (ui st);
              isSpeaking := v;
              isFetchingAudio := isFetchingAudio (ui st);
              selectedVoice := selectedVoice (ui st) |};
     audioContextRef := audioContextRef st; audioSourceRef := audioSourceRef st;
     nodes := nodes st; trace := trace st |}.

Definition setIsFetchingAudio (v : bool) (st : Component) : Component :=
  {| ui := {| userInput := userInput (ui st); reflection := reflection (ui st);
              isLoading := isLoading (ui st); error := error (ui st);
              isSpeaking := isSpeaking (ui st);
              isFetchingAudio := v;
              selectedVoice := selectedVoice (ui st) |};
     audioContextRef := audioContextRef st; audioSourceRef := audioSourceRef st;
     nodes := nodes st; trace := trace st |}.

Definition setSelectedVoice (v : string) (st : Component) : Component :=
  {| ui := {| userInput := userInput (ui st); reflection := reflection (ui st);
              isLoading := isLoading (ui st); error := error (ui st);
              isSpeaking := isSpeaking (ui st);
              isFetchingAudio := isFetchingAudio (ui st);
              selectedVoice := v |};
     audioContextRef := audioContextRef st; audioSourceRef := audioSourceRef st;
     nodes := nodes st; trace := trace st |}.

Definition set_audioContextRef (v : option AudioContext) (st : Component) : Component :=
  {| ui := ui st; audioContextRef := v; audioSourceRef := audioSourceRef st;
     nodes := nodes st; trace := trace st |}.

Definition set_audioSourceRef (v : option nat) (st : Component) : Component :=
  {| ui := ui st; audioContextRef := audioContextRef st; audioSourceRef := v;
     nodes := nodes st; trace := trace st |}.

Definition set_nodes (v : list SourceNode) (st : Component) : Component :=
  {| ui := ui st; audioContextRef := audioContextRef st;
     audioSourceRef := audioSourceRef st; nodes := v; trace := trace st |}.

(** An outside call, appended to the trace. *)
Definition emit (es : list Effect) (st : Component) : Component :=
  {| ui := ui st; audioContextRef := audioContextRef st;
     audioSourceRef := audioSourceRef st; nodes := nodes st;
     trace := trace st ++ es |}.

(** **** Operations on a source node *)

Definition new_node : SourceNode :=
  {| buffer := None; connected := false; onended := false; playback := unscheduled |}.

Definition node_set_buffer (b : AudioBuffer) (n : SourceNode) : SourceNode :=
  {| buffer := Some b; connected := connected n; onended := onended n;
     playback := playback n |}.

Definition node_set_connected (v : bool) (n : SourceNode) : SourceNode :=
  {| buffer := buffer n; connected := v; onended := onended n;
     playback := playback n |}.

Definition node_set_onended (v : bool) (n : SourceNode) : SourceNode :=
  {| buffer := buffer n; connected := connected n; onended := v;
     playback := playback n |}.

Definition node_set_playback (v : Playback) (n : SourceNode) : SourceNode :=
  {| buffer := buffer n; connected := connected n; onended := onended n;
     playback := v |}.

(** [stop()] ends a playing source; one that has ended stays ended. *)
Definition node_stop (n : SourceNode) : SourceNode :=
  match playback n with
  | playing => node_set_playback stopped n
  | _ => n
  end.

Definition on_node (id : nat) (f : SourceNode -> SourceNode) (st : Component) : Component :=
  set_nodes (alter f id (nodes st)) st.

(** A source as [handleListen] leaves it: buffer set, connected, handler
    installed, started. *)
Definition started (audioBuffer : AudioBuffer) : SourceNode :=
  {| buffer := Some audioBuffer; connected := true; onended := true;
     playback := playing |}.

(** **** [stopPlayback] (lines 60-68) *)

Definition stopPlayback (st : Component) : Component :=
  let st :=
    match audioSourceRef st with
    | Some id =>
        let st := on_node id (node_set_onended false) st in
        let st := emit [Stop id] (on_node id node_stop st) in
        let st := emit [Disconnect id] (on_node id (node_set_connected false) st) in
        set_audioSourceRef None st
    | None => st
    end in
  setIsSpeaking false st.

(** **** [handleListen] (lines 77-122)

    The handler suspends at [await audioContext.resume()], inside
    [getSpokenReflection] at its [await], at [await getSpokenReflection(...)]
    and at [await decodeAudioData(...)]. A suspended activation keeps the
    locals it still needs. *)

Inductive ListenTask :=
| AwaitResume (audioContext : AudioContext) (text voice : string)
| AwaitSpeech (audioContext : AudioContext)
| AwaitSpoken (audioContext : AudioContext) (base64Audio : Result string)
| AwaitDecoded (audioBuffer : Result AudioBuffer).

Definition handleListen_catch (err : Exception) (st : Component) : Component :=
  let st := setError (Some "Sorry, the reflection could not be spoken at this time.") st in
  let st := emit [ConsoleError err] st in
  setIsSpeaking false st.

Definition handleListen_finally (st : Component) : Component :=
  setIsFetchingAudio false st.

Definition handleListen_fail (err : Exception) (st : Component)
  : Component * option ListenTask :=
  (handleListen_finally (handleListen_catch err st), None).

(** From the call to the first [await]. [created] is what
    [new AudioContext(...)] gives if it is called. *)
Definition handleListen (text : string) (created : Result AudioContext)
    (st : Component) : Component * option ListenTask :=
  if isSpeaking (ui st) then (stopPlayback st, None)
  else if isFetchingAudio (ui st) then (st, None)
  else
    let st := setIsFetchingAudio true st in
    let st := setError None st in
    let acquired :=
      match audioContextRef st with
      | Some audioContext => (Ok audioContext, st)
      | None =>
          let st := emit [NewAudioContext] st in
          match created with
          | Ok audioContext => (Ok audioContext, set_audioContextRef (Some audioContext) st)
          | Throw err => (Throw err, st)
          end
      end in
    match acquired with
    | (Throw err, st) => handleListen_fail err st
    | (Ok audioContext, st) =>
        match state audioContext with
        | suspended =>
            (emit [Resume] st, Some (AwaitResume audioContext text (selectedVoice (ui st))))
        | running =>
            (emit (geminiService.getSpokenReflection_request text (selectedVoice (ui st))) st,
             Some (AwaitSpeech audioContext))
        end
    end.

Definition context_running (c : AudioContext) : AudioContext :=
  {| state := running; maxChannels := maxChannels c;
     minSampleRate := minSampleRate c; maxSampleRate := maxSampleRate c |}.

(** [source.start(); audioSourceRef.current = source; setIsSpeaking(true)]
    and the lines before them, from [createBufferSource] on. *)
Definition start_source (audioBuffer : AudioBuffer) (st : Component) : Component :=
  let source := length (nodes st) in
  let st := emit [CreateBufferSource source] (set_nodes (nodes st ++ [new_node]) st) in
  let st := on_node source (node_set_buffer audioBuffer) st in
  let st := emit [Connect source] (on_node source (node_set_connected true) st) in
  let st := on_node source (node_set_onended true) st in
  let st := emit [Start source] (on_node source (node_set_playback playing) st) in
  let st := set_audioSourceRef (Some source) st in
  setIsSpeaking true st.

(** The rest of the handler, one piece per [await]. *)
Definition handleListen_resume (task : ListenTask)
    (settled : Result unit) (outcome : Result geminiService.GenerateContentResponse)
    (st : Component) : Component * option ListenTask :=
  match task with
  | AwaitResume audioContext text voice =>
      match settled with
      | Throw err => handleListen_fail err st
      | Ok _ =>
          let st := set_audioContextRef (context_running <$> audioContextRef st) st in
          (emit (geminiService.getSpokenReflection_request text voice) st,
           Some (AwaitSpeech audioContext))
      end
  | AwaitSpeech audioContext =>
      let (base64Audio, es) := geminiService.getSpokenReflection outcome in
      (emit es st, Some (AwaitSpoken audioContext base64Audio))
  | AwaitSpoken audioContext (Throw err) => handleListen_fail err st
  | AwaitSpoken audioContext (Ok base64Audio) =>
      match decode base64Audio with
      | Throw err => handleListen_fail err st
      | Ok audioBytes =>
          (st, Some (AwaitDecoded (decodeAudioData audioBytes audioContext 24000 1)))
      end
  | AwaitDecoded (Throw err) => handleListen_fail err st
  | AwaitDecoded (Ok audioBuffer) =>
      (handleListen_finally (start_source audioBuffer st), None)
  end.

(** The handler installed on [source.onended]. *)
Definition source_onended (st : Component) : Component :=
  set_audioSourceRef None (setIsSpeaking false st).

(** **** [handleSubmit] (lines 124-145) *)

Inductive SubmitTask :=
| AwaitText
| AwaitReflection (result : Result string).

(** [!userInput.trim()] *)
Definition blank (s : string) : bool :=
  bool_decide (trim (code_units s) = []).

Definition handleSubmit (st : Component) : Component * option SubmitTask :=
  if blank (userInput (ui st)) || isLoading (ui st) then (st, None)
  else
    let st := stopPlayback st in
    let st := setIsLoading true st in
    let st := setError None st in
    let st := setReflection "" st in
    (emit (geminiService.getReflection_request (userInput (ui st))) st, Some AwaitText).

Definition handleSubmit_resume (task : SubmitTask)
    (outcome : Result geminiService.GenerateContentResponse)
    (st : Component) : Component * option SubmitTask :=
  match task with
  | AwaitText =>
      let (result, es) := geminiService.getReflection outcome in
      (emit es st, Some (AwaitReflection result))
  | AwaitReflection (Ok result) =>
      let st := setReflection result st in
      let st := setUserInput "" st in
      (setIsLoading false st, None)
  | AwaitReflection (Throw err) =>
      let st :=
        setError (Some "A reflection could not be generated. The engine is offline. Please try again.") st in
      let st := emit [ConsoleError err] st in
      (setIsLoading false st, None)
  end.

(** *** What is on the screen *)

Inductive PlaybackState := Idle | Fetching | Playing.

(** The label of the play button:
    [isSpeaking ? "Stop speaking" : (isFetchingAudio ? "Loading audio..." : "Listen to reflection")]. *)
Definition playbackState (u : UI) : PlaybackState :=
  if isSpeaking u then Playing
  else if isFetchingAudio u then Fetching
  else Idle.

(** [{error && <p role="alert">{error}</p>}] *)
Definition shown_error (u : UI) : option string :=
  match error u with
  | Some e => if bool_decide (e = "") then None else Some e
  | None => None
  end.

(** [{!isLoading && !error && reflection && <blockquote>...}] *)
Definition shown_reflection (u : UI) : option string :=
  if negb (isLoading u) && negb (bool_decide (shown_error u <> None))
     && negb (bool_decide (reflection u = ""))
  then Some (reflection u) else None.

(** *** The machine

    The component together with the activations of the two handlers that
    are suspended. One event is one run of the event loop: a call of a
    handler, the settling of something awaited, or the audio device
    reaching the end of a buffer. Both callbacks list every state
    variable they read as a dependency, so a call reads the state as the
    events before it left it. The handlers are called here in every
    state and with every argument; the [disabled] attributes of the
    controls only take calls away. *)

Record World := {
  app : Component;
  listens : list ListenTask;
  submits : list SubmitTask;
}.

Inductive Event :=
| OnChange (value : string)                 (* the textarea *)
| OnSelect (value : string)                 (* the voice picker *)
| OnSubmit                                  (* handleSubmit(e) *)
| OnListen (text : string) (created : Result AudioContext)   (* handleListen(text) *)
| Cleanup                                   (* the effect's cleanup: stopPlayback() *)
| Ended (source : nat)                      (* end of buffer reached *)
| ListenSettled (k : nat) (settled : Result unit)
    (outcome : Result geminiService.GenerateContentResponse)
| SubmitSettled (k : nat) (outcome : Result geminiService.GenerateContentResponse).

(** A task list after the [k]th task has run: replaced by its next
    suspension, or dropped when the handler has returned. *)
Definition settle {T} (k : nat) (next : option T) (tasks : list T) : list T :=
  match next with
  | Some t => <[k := t]> tasks
  | None => delete k tasks
  end.

Definition spawn {T} (next : option T) (tasks : list T) : list T :=
  match next with
  | Some t => tasks ++ [t]
  | None => tasks
  end.

Definition step (e : Event) (w : World) : option World :=
  match e with
  | OnChange value =>
      Some {| app := setUserInput value (app w); listens := listens w; submits := submits w |}
  | OnSelect value =>
      Some {| app := setSelectedVoice value (app w); listens := listens w; submits := submits w |}
  | OnSubmit =>
      let (st, next) := handleSubmit (app w) in
      Some {| app := st; listens := listens w; submits := spawn next (submits w) |}
  | OnListen text created =>
      let (st, next) := handleListen text created (app w) in
      Some {| app := st; listens := spawn next (listens w); submits := submits w |}
  | Cleanup =>
      Some {| app := stopPlayback (app w); listens := listens w; submits := submits w |}
  | Ended source =>
      match nodes (app w) !! source with
      | Some n =>
          match playback n with
          | playing =>
              let st := on_node source (node_set_playback ended) (app w) in
              let st := if onended n then source_onended st else st in
              Some {| app := st; listens := listens w; submits := submits w |}
          | _ => None
          end
      | None => None
      end
  | ListenSettled k settled outcome =>
      match listens w !! k with
      | Some task =>
          let (st, next) := handleListen_resume task settled outcome (app w) in
          Some {| app := st; listens := settle k next (listens w); submits := submits w |}
      | None => None
      end
  | SubmitSettled k outcome =>
      match submits w !! k with
      | Some task =>
          let (st, next) := handleSubmit_resume task outcome (app w) in
          Some {| app := st; listens := listens w; submits := settle k next (submits w) |}
      | None => None
      end
  end.

(** [useState] initial values and [useRef(null)]. *)
Definition init : World :=
  {| app := {| ui := {| userInput := ""; reflection := ""; isLoading := false;
                        error := None; isSpeaking := false;
                        isFetchingAudio := false; selectedVoice := "Kore" |};
               audioContextRef := None; audioSourceRef := None;
               nodes := []; trace := [] |};
     listens := []; submits := [] |}.

Inductive reachable : World -> Prop :=
| reachable_init : reachable init
| reachable_step w e w' : reachable w -> step e w = Some w' -> reachable w'.

(** Running a list of events, for examples. *)
Fixpoint run (es : list Event) (w : World) : option World :=
  match es with
  | [] => Some w
  | e :: es' =>
      match step e w with
      | Some w' => run es' w'
      | None => None
      end
  end.

(** *** What holds in every reachable state *)

(** The ref and the graph agree: the ref points to the playing source,
    which carries the [onended] handler, no other source is playing, and
    [isSpeaking] says whether the ref is set. *)
Record AudioInv (st : Component) : Prop := {
  ref_is_playing : forall id, audioSourceRef st = Some id ->
    exists n, nodes st !! id = Some n /\ playback n = playing /\ onended n = true;
  playing_is_ref : forall id n, nodes st !! id = Some n -> playback n = playing ->
    audioSourceRef st = Some id;
  all_scheduled : forall id n, nodes st !! id = Some n -> playback n <> unscheduled;
  speaking_is_ref :
    isSpeaking (ui st) = match audioSourceRef st with Some _ => true | None => false end;
}.

(** At most one activation of [handleListen] is suspended, exactly while
    [isFetchingAudio] is set, and nothing plays meanwhile. *)
Definition ListenInv (w : World) : Prop :=
  (listens w = [] /\ isFetchingAudio (ui (app w)) = false) \/
  (exists task, listens w = [task] /\ isFetchingAudio (ui (app w)) = true /\
                isSpeaking (ui (app w)) = false).

(** At most one activation of [handleSubmit] is suspended, exactly while
    [isLoading] is set, and the reflection stays cleared meanwhile. *)
Definition SubmitInv (w : World) : Prop :=
  (submits w = [] /\ isLoading (ui (app w)) = false) \/
  (exists task, submits w = [task] /\ isLoading (ui (app w)) = true /\
                reflection (ui (app w)) = "").

Definition Inv (w : World) : Prop :=
  AudioInv (app w) /\ ListenInv w /\ SubmitInv w.

(** The part of the React state that [handleListen] never writes. *)
Definition listen_frame (u u' : UI) : Prop :=
  userInput u' = userInput u /\ reflection u' = reflection u /\
  isLoading u' = isLoading u /\ selectedVoice u' = selectedVoice u.

(** *** The history of a source

    What the trace and the graph say together about every source made so
    far. A source that plays, or that reached the end of its buffer by
    itself, is still connected, still carries its [onended] handler, and
    was never passed to [stop()] or [disconnect()]. A source that
    [stopPlayback] stopped has lost its handler, is disconnected, and
    both calls are in the trace. No call names a source not yet made. *)

Definition quiet (es : list Effect) : Prop :=
  forall id, (Stop id ∉ es) /\ (Disconnect id ∉ es).

Definition untouched (tr : list Effect) (id : nat) (n : SourceNode) : Prop :=
  connected n = true /\ onended n = true /\ (Stop id ∉ tr) /\ (Disconnect id ∉ tr).

Definition released (tr : list Effect) (id : nat) (n : SourceNode) : Prop :=
  connected n = false /\ onended n = false /\ Stop id ∈ tr /\ Disconnect id ∈ tr.

Record GraphInv (st : Component) : Prop := {
  node_history : forall id n, nodes st !! id = Some n ->
    match playback n with
    | unscheduled => False
    | playing | ended => untouched (trace st) id n
    | stopped => released (trace st) id n
    end;
  no_history_yet : forall id, (length (nodes st) <= id)%nat ->
    (Stop id ∉ trace st) /\ (Disconnect id ∉ trace st);
}.

(** *** The controls (lines 39-45 and 160-222)

    What the rendered page lets the user do. The textarea is disabled
    while loading; the submit button while loading or for a blank input;
    the play button exists only beside a shown reflection, calls
    [handleListen] with it, and is disabled while loading or fetching;
    the voice picker offers the five voices and is disabled while
    speaking or fetching. *)

Definition availableVoices : list string :=
  ["Kore"; "Puck"; "Charon"; "Fenrir"; "Zephyr"].

Definition enabled (e : Event) (w : World) : bool :=
  let u := ui (app w) in
  match e with
  | OnChange _ => negb (isLoading u)
  | OnSelect value =>
      negb (isSpeaking u || isFetchingAudio u) && bool_decide (value ∈ availableVoices)
  | OnSubmit => negb (isLoading u || blank (userInput u))
  | OnListen text _ =>
      bool_decide (shown_reflection u = Some text)
      && negb (isLoading u || isFetchingAudio u)
  | Cleanup | Ended _ | ListenSettled _ _ _ | SubmitSettled _ _ => true
  end.

(** The states the page can be brought into through its controls. *)
Inductive ui_reachable : World -> Prop :=
| ui_reachable_init : ui_reachable init
| ui_reachable_step w e w' :
    ui_reachable w -> enabled e w = true -> step e w = Some w' -> ui_reachable w'.

(** Where an outside call comes from: what event [e] may add to the
    trace out of the world [w]. A request for text is sent by a
    submission, with the input as it stands, which is not blank; a
    request for speech by a call of [handleListen], with its argument
    and the selected voice, or by the activation suspended at
    [resume()], with the text and voice it keeps; a context is made by
    a call of [handleListen] while the ref is empty. *)
Definition emitted_by (w : World) (e : Event) (x : Effect) : Prop :=
  match x with
  | GenerateText contents =>
      e = OnSubmit /\ contents = userInput (ui (app w)) /\
      blank contents = false /\ isLoading (ui (app w)) = false
  | GenerateSpeech text voice =>
      (exists created, e = OnListen text created /\
                       voice = selectedVoice (ui (app w))) \/
      (exists k settled outcome c,
          e = ListenSettled k settled outcome /\
          listens w !! k = Some (AwaitResume c text voice))
  | NewAudioContext =>
      audioContextRef (app w) = None /\ exists text created, e = OnListen text created
  | Resume => exists text created, e = OnListen text created
  | CreateBufferSource id | Connect id | Start id =>
      id = length (nodes (app w)) /\
      exists k settled outcome audioBuffer,
        e = ListenSettled k settled outcome /\
        listens w !! k = Some (AwaitDecoded (Ok audioBuffer))
  | Stop id | Disconnect id => audioSourceRef (app w) = Some id
  | ConsoleError _ => True
  end.

(** What the page guarantees about the requests in flight and sent: the
    voice is one of the five, the text to speak is not empty. *)
Definition RequestInv (w : World) : Prop :=
  selectedVoice (ui (app w)) ∈ availableVoices /\
  (forall c text voice, AwaitResume c text voice ∈ listens w ->
     voice ∈ availableVoices /\ text <> "") /\
  (forall text voice, GenerateSpeech text voice ∈ trace (app w) ->
     voice ∈ availableVoices /\ text <> "").

(** *** Worlds for the examples *)

Definition world_after (es : list Event) : World := default init (run es init).

Definition audio_response (base64 : string) : geminiService.GenerateContentResponse :=
  {| geminiService.candidates :=
       Some [ {| geminiService.content :=
                   Some {| geminiService.parts :=
                             Some [ {| geminiService.inlineData :=
                                         Some {| geminiService.data := Some base64 |} |} ] |} |} ];
     geminiService.text := None |}.

Definition empty_response : geminiService.GenerateContentResponse :=
  {| geminiService.candidates := Some []; geminiService.text := None |}.

(** A click on the play button, up to the request for speech. *)
Definition listen_events : list Event :=
  [ OnListen "Your inner well has run dry." (Ok a_context);
    ListenSettled 0 (Ok ()) (Throw TypeError) ].

(** The same, answered with two samples and carried on until they play. *)
Definition play_events : list Event :=
  listen_events ++
  [ ListenSettled 0 (Ok ()) (Ok (audio_response "AQD/fw=="));
    ListenSettled 0 (Ok ()) (Throw TypeError);
    ListenSettled 0 (Ok ()) (Throw TypeError) ].

(** A further click on the play button, once the context runs: up to
    the decoded buffer, one step before the source is made. *)
Definition speak_again : list Event :=
  [ OnListen "Your inner well has run dry." (Ok a_context);
    ListenSettled 0 (Ok ()) (Ok (audio_response "AQD/fw=="));
    ListenSettled 0 (Ok ()) (Throw TypeError) ].

(** Three clicks with two endings in between: the first source is
    stopped by a click, the second plays to its end, the third is about
    to be made. *)
Definition history_events : list Event :=
  play_events
  ++ [ OnListen "stop" (Ok a_context) ]
  ++ speak_again ++ [ ListenSettled 0 (Ok ()) (Throw TypeError) ]
  ++ [ Ended 1 ]
  ++ speak_again.

(** The request for speech, answered without audio. *)
Definition no_audio_events : list Event :=
  listen_events ++ [ListenSettled 0 (Ok ()) (Ok empty_response)].

Definition text_response (t : string) : geminiService.GenerateContentResponse :=
  {| geminiService.candidates := None; geminiService.text := Some t |}.

(** Running a list of events through the controls. *)
Fixpoint ui_run (es : list Event) (w : World) : option World :=
  match es with
  | [] => Some w
  | e :: es' =>
      if enabled e w then
        match step e w with
        | Some w' => ui_run es' w'
        | None => None
        end
      else None
  end.

Definition ui_world_after (es : list Event) : World := default init (ui_run es init).

(** Typing, submitting, reading the reflection, pressing play: up to the
    request for speech. *)
Definition ui_listen_events : list Event :=
  [ OnChange "I feel stuck and tired";
    OnSubmit;
    SubmitSettled 0 (Ok (text_response " You stand at a crossroads. "));
    SubmitSettled 0 (Throw TypeError);
    OnListen "You stand at a crossroads." (Ok a_context);
    ListenSettled 0 (Ok ()) (Throw TypeError) ].

End App.

(** * Properties *)

(** ** Loops that write one position per turn *)

Section Loops.
Context {A : Type}.

(** Induction two elements at a time, as the 16-bit view reads bytes. *)
Lemma list_pair_ind (P : list A -> Prop) :
  P [] -> (forall x, P [x]) -> (forall x y l, P l -> P (x :: y :: l)) ->
  forall l, P l.
Proof.
  intros Hnil Hone Hcons l.
  assert (P l /\ forall x, P (x :: l)) as [H _]; [|exact H].
  induction l as [|y l [IH1 IH2]]; split; auto.
Qed.

Lemma for_from_ext {St} (body1 body2 : nat -> St -> St) n i s :
  (forall i s, body1 i s = body2 i s) ->
  for_from i n body1 s = for_from i n body2 s.
Proof.
  intros Hext. revert i s. induction n as [|n IH]; intros i s; simpl; [done|].
  by rewrite Hext, IH.
Qed.

Lemma for_from_alter (g : nat -> A -> A) n i (l : list A) j :
  for_from i n (fun i l => alter (g i) i l) l !! j =
  if decide (i <= j < i + n)%nat then g j <$> l !! j else l !! j.
Proof.
  revert i l. induction n as [|n IH]; intros i l; simpl.
  - case_decide; [lia | done].
  - rewrite IH. destruct (decide (i = j)) as [->|Hne].
    + rewrite list_lookup_alter_eq. repeat case_decide; try lia; done.
    + rewrite list_lookup_alter_ne by done. repeat case_decide; try lia; done.
Qed.

Lemma for_from_insert (f : nat -> A) n i (l : list A) j :
  for_from i n (fun i l => <[i := f i]> l) l !! j =
  if decide (i <= j < i + n)%nat then (fun _ => f j) <$> l !! j else l !! j.
Proof.
  rewrite (for_from_ext _ (fun i l => alter (fun _ => f i) i l))
    by (intros; apply list_insert_alter).
  apply (for_from_alter (fun i _ => f i)).
Qed.

Lemma length_for_from_alter (g : nat -> A -> A) n i (l : list A) :
  length (for_from i n (fun i l => alter (g i) i l) l) = length l.
Proof.
  revert i l. induction n as [|n IH]; intros i l; simpl; [done|].
  by rewrite IH, length_alter.
Qed.

Lemma length_for_from_insert (f : nat -> A) n i (l : list A) :
  length (for_from i n (fun i l => <[i := f i]> l) l) = length l.
Proof.
  revert i l. induction n as [|n IH]; intros i l; simpl; [done|].
  by rewrite IH, length_insert.
Qed.
End Loops.

(** ** The PCM decoder and the buffer builder *)

Module PCM.

Import Platform App.

(** [decode] copies the binary string that [atob] returns, byte by byte. *)
Lemma decode_copies base64 binaryString :
  atob base64 = Ok binaryString ->
  decode base64 = Ok (ToUint8 <$> binaryString).
Proof.
  intros Hatob. unfold decode. rewrite Hatob. simpl. unfold mret, Result_ret. f_equal.
  apply list_eq. intros j. unfold for_upto.
  rewrite for_from_insert, list_lookup_fmap.
  destruct (binaryString !! j) as [c|] eqn:Hj.
  - assert (j < length binaryString)%nat by (by eapply lookup_lt_Some).
    rewrite lookup_replicate_2 by done. rewrite decide_True by lia.
    simpl. unfold charCodeAt. by rewrite Hj.
  - assert (length binaryString <= j)%nat by (by apply lookup_ge_None).
    rewrite decide_False by lia. simpl.
    by apply lookup_replicate_None.
Qed.

Lemma decode_throws base64 e :
  atob base64 = Throw e -> decode base64 = Throw e.
Proof. intros Hatob. unfold decode. by rewrite Hatob. Qed.

(** The view has one element per pair of bytes. *)
Lemma length_int16_elements bytes :
  length (int16_elements bytes) = (length bytes / 2)%nat.
Proof.
  induction bytes as [| |lo hi rest IH] using list_pair_ind; [done..|].
  simpl int16_elements. simpl length. rewrite IH.
  change (S (S (length rest))) with (1 * 2 + length rest)%nat.
  rewrite Nat.div_add_l by lia. lia.
Qed.

Lemma ToInt16_range u : -32768 <= ToInt16 u <= 32767.
Proof. unfold ToInt16. pose proof (Z.mod_pos_bound (u + 32768) 65536). lia. Qed.

Lemma int16_elements_range bytes :
  Forall (fun s => -32768 <= s <= 32767) (int16_elements bytes).
Proof.
  induction bytes as [| |lo hi rest IH] using list_pair_ind; [constructor..|].
  simpl. constructor; [apply ToInt16_range | apply IH].
Qed.

(** [s / 32768.0] is exact: the quotient has a 16-bit significand and the
    exponent -15, so it is a binary32 value (24-bit significand, exponents
    from -149) and a binary64 value, and no rounding takes place when it
    is computed or stored. *)
Lemma div_32768_exact s :
  -32768 <= s <= 32767 ->
  exists m e : Z, Z.abs m < 2 ^ 24 /\ -149 <= e <= 104 /\
    (inject_Z s / 32768 == inject_Z m * (1 # 2 ^ Z.to_pos (- e)))%Q.
Proof.
  intros Hs. exists s, (-15). split; [lia|]. split; [lia|].
  unfold Qeq. simpl. lia.
Qed.

(** *** The two loops of [decodeAudioData] *)

(** The inner loop only touches the channel it was given. *)
Lemma inner_loop channel (f : nat -> Number) n i buffer :
  for_from i n (fun i b => store_sample channel i (f i) b) buffer =
  {| sampleRate := sampleRate buffer;
     channels := alter (fun cd => for_from i n (fun i cd => <[i := f i]> cd) cd)
                   channel (channels buffer) |}.
Proof.
  revert i buffer. induction n as [|n IH]; intros i buffer; simpl.
  - rewrite list_alter_id by done. by destruct buffer.
  - rewrite IH. unfold store_sample. simpl. f_equal.
    by rewrite list_alter_alter_eq.
Qed.

Lemma outer_loop (G : nat -> list Number -> list Number) n c buffer :
  for_from c n
    (fun ch b => {| sampleRate := sampleRate b;
                    channels := alter (G ch) ch (channels b) |}) buffer =
  {| sampleRate := sampleRate buffer;
     channels := for_from c n (fun ch l => alter (G ch) ch l) (channels buffer) |}.
Proof.
  revert c buffer. induction n as [|n IH]; intros c buffer; simpl.
  - by destruct buffer.
  - by rewrite IH.
Qed.

(** What [createBuffer] was asked for, when it answered. *)
Lemma createBuffer_Ok ctx C frameCount rate buffer :
  createBuffer ctx C frameCount rate = Ok buffer ->
  0 < to_unsigned_long frameCount /\ (0 < C <= maxChannels ctx)%nat /\
  minSampleRate ctx <= rate <= maxSampleRate ctx /\
  buffer = {| sampleRate := rate;
              channels := replicate C
                (replicate (Z.to_nat (to_unsigned_long frameCount)) (Fin 0)) |}.
Proof.
  unfold createBuffer. intros H.
  destruct (_ && _) eqn:Hc in H; [|done].
  repeat (apply andb_prop in Hc as [Hc ?]).
  split; [lia|]. split; [lia|]. split; [lia|]. by inversion H.
Qed.

Lemma createBuffer_accepts ctx C frameCount rate :
  0 < to_unsigned_long frameCount -> (0 < C <= maxChannels ctx)%nat ->
  minSampleRate ctx <= rate <= maxSampleRate ctx ->
  createBuffer ctx C frameCount rate =
  Ok {| sampleRate := rate;
        channels := replicate C
          (replicate (Z.to_nat (to_unsigned_long frameCount)) (Fin 0)) |}.
Proof.
  intros Hf HC Hr. unfold createBuffer.
  replace (_ && _) with true; [done|]. symmetry.
  repeat (apply andb_true_intro; split); lia.
Qed.

Lemma Qfloor_frame_count samples C :
  Qfloor (frame_count samples C) = Z.of_nat (length samples / C).
Proof.
  unfold frame_count. rewrite <- Zdiv_Qdiv.
  destruct C as [|C]; [by rewrite Z.div_0_r | by rewrite Nat2Z.inj_div].
Qed.

Lemma frames_le_iterations samples C :
  (Z.to_nat (to_unsigned_long (frame_count samples C)) <= length samples / C
   <= iterations (frame_count samples C))%nat.
Proof.
  unfold to_unsigned_long, iterations.
  pose proof (Qle_floor_ceiling (frame_count samples C)) as Hfc.
  rewrite Qfloor_frame_count in *. rewrite <- Zle_Qle in Hfc.
  pose proof (Z.mod_le (Z.of_nat (length samples / C)) (2 ^ 32)
                ltac:(lia) ltac:(lia)).
  pose proof (Z.mod_pos_bound (Z.of_nat (length samples / C)) (2 ^ 32) ltac:(lia)).
  lia.
Qed.

Lemma sample_index_in_range (samples : list Z) C i channel :
  (i < length samples / C)%nat -> (channel < C)%nat ->
  (i * C + channel < length samples)%nat.
Proof.
  intros Hi Hc. pose proof (Nat.Div0.mul_div_le (length samples) C). nia.
Qed.

(** The buffer that [decodeAudioData] returns, in closed form: as many
    frames as [createBuffer] made, each holding its interleaved sample
    over 32768. *)
Lemma decodeAudioData_closed_form data samples ctx rate C buffer :
  Int16Array_of_buffer data = Ok samples ->
  decodeAudioData data ctx rate C = Ok buffer ->
  buffer =
  {| sampleRate := rate;
     channels :=
       (fun channel =>
          (fun i => div_32768 (samples !! (i * C + channel)%nat))
            <$> seq 0 (Z.to_nat (to_unsigned_long (frame_count samples C))))
         <$> seq 0 C |}.
Proof.
  intros Hview Hrun. unfold decodeAudioData in Hrun. rewrite Hview in Hrun.
  simpl in Hrun.
  destruct (createBuffer _ _ _ _) as [created|] eqn:Hcreated; [|done].
  apply createBuffer_Ok in Hcreated as (Hframes & HC & Hrate & ->).
  simpl in Hrun. unfold mret, Result_ret in Hrun. inversion Hrun as [Hbuf]. clear Hrun Hbuf.
  unfold for_upto.
  rewrite (for_from_ext _
    (fun channel b =>
       {| sampleRate := sampleRate b;
          channels := alter
            (fun cd => for_from 0 (iterations (frame_count samples C))
               (fun i cd => <[i := div_32768 (samples !! (i * C + channel)%nat)]> cd) cd)
            channel (channels b) |}))
    by (intros; apply inner_loop).
  rewrite outer_loop. simpl. f_equal.
  apply list_eq. intros channel.
  rewrite (for_from_alter
    (fun channel cd => for_from 0 (iterations (frame_count samples C))
       (fun i cd => <[i := div_32768 (samples !! (i * C + channel)%nat)]> cd) cd)).
  rewrite list_lookup_fmap.
  destruct (decide (channel < C)%nat) as [Hlt|Hge].
  - rewrite decide_True by lia.
    rewrite lookup_replicate_2, lookup_seq_lt by done. simpl. f_equal.
    apply list_eq. intros i. rewrite for_from_insert, list_lookup_fmap.
    pose proof (frames_le_iterations samples C).
    destruct (decide (i < Z.to_nat (to_unsigned_long (frame_count samples C)))%nat).
    + rewrite decide_True by lia.
      by rewrite lookup_replicate_2, lookup_seq_lt by done.
    + rewrite lookup_seq_ge by lia.
      assert (replicate (Z.to_nat (to_unsigned_long (frame_count samples C)))
                (Fin 0) !! i = None) as -> by (apply lookup_replicate_None; lia).
      by case_decide.
  - rewrite decide_False by lia.
    rewrite lookup_seq_ge by lia.
    by assert (replicate C (replicate (Z.to_nat (to_unsigned_long (frame_count samples C)))
                 (Fin 0)) !! channel = None) as -> by (apply lookup_replicate_None; lia).
Qed.

(** *** The buffer builder *)

(** C1, as the code has it. For a byte buffer that a 16-bit view accepts,
    holding [len] samples, and a channel count [C] with [1 <= C <= len]
    that the context supports at the given rate, [decodeAudioData]
    returns [C] channel arrays of length [floor(len/C)] each (below 2^32
    frames), and element [i] of channel [c] is sample [i*C + c] divided
    by 32768. *)
Theorem decodeAudioData_deinterleaves data samples ctx rate (C : nat) :
  Int16Array_of_buffer data = Ok samples ->
  (1 <= C <= maxChannels ctx)%nat ->
  (C <= length samples)%nat ->
  minSampleRate ctx <= rate <= maxSampleRate ctx ->
  Z.of_nat (length samples / C) < 2 ^ 32 ->
  exists buffer,
    decodeAudioData data ctx rate C = Ok buffer /\
    length (channels buffer) = C /\
    forall channel, (channel < C)%nat ->
      exists channelData,
        channels buffer !! channel = Some channelData /\
        length channelData = (length samples / C)%nat /\
        forall i, (i < length samples / C)%nat ->
          exists s, samples !! (i * C + channel)%nat = Some s /\
                    channelData !! i = Some (Fin (inject_Z s / 32768)).
Proof.
  intros Hview HC Hlen Hrate Hsmall.
  assert (1 <= length samples / C)%nat as Hone
    by (apply Nat.div_le_lower_bound; lia).
  assert (to_unsigned_long (frame_count samples C) = Z.of_nat (length samples / C))
    as Hframes.
  { unfold to_unsigned_long. rewrite Qfloor_frame_count. apply Z.mod_small. lia. }
  destruct (decodeAudioData data ctx rate C) as [buffer|e] eqn:Hrun.
  - exists buffer. split; [done|].
    rewrite (decodeAudioData_closed_form _ _ _ _ _ _ Hview Hrun). simpl.
    rewrite Hframes, Nat2Z.id.
    split; [by rewrite length_fmap, length_seq|].
    intros channel Hchannel. eexists. split.
    { rewrite list_lookup_fmap, lookup_seq_lt by done. reflexivity. }
    split; [by rewrite length_fmap, length_seq|].
    intros i Hi.
    pose proof (sample_index_in_range samples C i channel Hi Hchannel) as Hidx.
    destruct (lookup_lt_is_Some_2 samples _ Hidx) as [s Hs].
    exists s. split; [done|].
    rewrite list_lookup_fmap, lookup_seq_lt by done. simpl. by rewrite Hs.
  - exfalso. unfold decodeAudioData in Hrun. rewrite Hview in Hrun. simpl in Hrun.
    rewrite createBuffer_accepts in Hrun by lia. done.
Qed.

Lemma decodeAudioData_deinterleaves_witness :
  exists buffer,
    decodeAudioData [1; 0; 2; 0; 3; 0; 4; 0; 5; 0] a_context 24000 2 = Ok buffer /\
    length (channels buffer) = 2%nat /\
    forall channel, (channel < 2)%nat ->
      exists channelData,
        channels buffer !! channel = Some channelData /\
        length channelData = (length [1; 2; 3; 4; 5] / 2)%nat /\
        forall i, (i < length [1; 2; 3; 4; 5] / 2)%nat ->
          exists s, [1; 2; 3; 4; 5] !! (i * 2 + channel)%nat = Some s /\
                    channelData !! i = Some (Fin (inject_Z s / 32768)).
Proof.
  apply (decodeAudioData_deinterleaves [1; 0; 2; 0; 3; 0; 4; 0; 5; 0]
           [1; 2; 3; 4; 5] a_context 24000 2).
  - reflexivity.
  - simpl; lia.
  - simpl; lia.
  - simpl; lia.
  - vm_compute; reflexivity.
Defined.

(** C1 as stated fails where there is no whole frame: for the empty
    buffer and one channel, no buffer of one channel of length
    [floor(0/1)] comes back, since [createBuffer] refuses zero frames. *)
Lemma decodeAudioData_no_frame :
  ~ exists buffer,
      decodeAudioData [] a_context 24000 1 = Ok buffer /\
      length (channels buffer) = 1%nat /\
      forall channelData, channelData ∈ channels buffer ->
        length channelData = (0 / 1)%nat.
Proof. intros (buffer & Hrun & _). vm_compute in Hrun. discriminate. Qed.

(** *** From base64 to samples *)

(** C2, as the code has it. Whatever [atob] accepts, [decode] turns into
    as many bytes. For an even number of them the 16-bit view exists and
    has [byteLength/2] samples; for an odd number its constructor throws
    a RangeError, and so does [decodeAudioData], whatever the context,
    rate and channel count. *)
Theorem samples_of_decoded_bytes base64 binaryString :
  atob base64 = Ok binaryString ->
  exists bytes,
    decode base64 = Ok bytes /\
    length bytes = length binaryString /\
    (Nat.even (length bytes) = true ->
       exists samples, Int16Array_of_buffer bytes = Ok samples /\
                       length samples = (length bytes / 2)%nat) /\
    (Nat.even (length bytes) = false ->
       Int16Array_of_buffer bytes = Throw RangeError /\
       forall ctx rate C, decodeAudioData bytes ctx rate C = Throw RangeError).
Proof.
  intros Hatob. exists (ToUint8 <$> binaryString).
  split; [by apply decode_copies|]. split; [by rewrite length_fmap|].
  split; intros Hparity.
  - exists (int16_elements (ToUint8 <$> binaryString)). split.
    + unfold Int16Array_of_buffer. by rewrite Hparity.
    + apply length_int16_elements.
  - assert (Int16Array_of_buffer (ToUint8 <$> binaryString) = Throw RangeError)
      as Hview by (unfold Int16Array_of_buffer; by rewrite Hparity).
    split; [done|]. intros ctx rate C. unfold decodeAudioData. by rewrite Hview.
Qed.

Lemma samples_of_decoded_bytes_witness :
  exists bytes,
    decode "AQD/fw==" = Ok bytes /\
    length bytes = length [1; 0; 255; 127] /\
    (Nat.even (length bytes) = true ->
       exists samples, Int16Array_of_buffer bytes = Ok samples /\
                       length samples = (length bytes / 2)%nat) /\
    (Nat.even (length bytes) = false ->
       Int16Array_of_buffer bytes = Throw RangeError /\
       forall ctx rate C, decodeAudioData bytes ctx rate C = Throw RangeError).
Proof.
  apply (samples_of_decoded_bytes "AQD/fw==" [1; 0; 255; 127]).
  vm_compute; reflexivity.
Defined.

(** C2 as stated fails: ["AA=="] decodes to one byte, and the trailing
    partial sample is not dropped; no sample sequence is produced. *)
Lemma odd_byte_length_throws :
  decode "AA==" = Ok [0] /\
  Nat.odd (length [0]) = true /\
  ~ exists samples,
      Int16Array_of_buffer [0] = Ok samples /\
      length samples = (length [0] / 2)%nat.
Proof.
  split; [vm_compute; reflexivity|]. split; [reflexivity|].
  intros (samples & Hview & _). vm_compute in Hview. discriminate.
Qed.

(** *** Normalisation *)

(** C4. A 16-bit sample divided by 32768 lies in [-1, 1). *)
Theorem normalized_sample_in_range s :
  -32768 <= s <= 32767 ->
  exists q, div_32768 (Some s) = Fin q /\ (-1 <= q)%Q /\ (q < 1)%Q.
Proof.
  intros Hs. eexists. split; [reflexivity|].
  unfold Qle, Qlt. simpl. lia.
Qed.

Lemma normalized_sample_in_range_witness :
  exists q, div_32768 (Some (-32768)) = Fin q /\ (-1 <= q)%Q /\ (q < 1)%Q.
Proof. apply (normalized_sample_in_range (-32768)). lia. Defined.

(** Every number in a buffer that [decodeAudioData] returns is such a
    quotient, whatever the bytes were. *)
Lemma decodeAudioData_output_in_range data ctx rate C buffer channelData x :
  decodeAudioData data ctx rate C = Ok buffer ->
  channelData ∈ channels buffer -> x ∈ channelData ->
  exists q, x = Fin q /\ (-1 <= q)%Q /\ (q < 1)%Q.
Proof.
  intros Hrun Hcd Hx.
  destruct (Int16Array_of_buffer data) as [samples|e] eqn:Hview;
    [|by unfold decodeAudioData in Hrun; rewrite Hview in Hrun].
  rewrite (decodeAudioData_closed_form _ _ _ _ _ _ Hview Hrun) in Hcd.
  simpl in Hcd.
  apply list_elem_of_fmap in Hcd as (channel & -> & Hchannel).
  apply list_elem_of_fmap in Hx as (i & -> & Hi).
  apply elem_of_seq in Hchannel, Hi.
  pose proof (frames_le_iterations samples C).
  assert (i * C + channel < length samples)%nat as Hidx
    by (apply sample_index_in_range; lia).
  destruct (lookup_lt_is_Some_2 samples _ Hidx) as [s Hs]. rewrite Hs.
  apply normalized_sample_in_range.
  unfold Int16Array_of_buffer in Hview.
  destruct (Nat.even _); [|done]. inversion Hview; subst samples.
  pose proof (int16_elements_range data) as Hall.
  rewrite Forall_lookup in Hall. by eapply Hall.
Qed.

End PCM.

(** ** The playback controller *)

Module Controller.

Import Platform App.

(** *** [stopPlayback] *)

Lemma stopPlayback_ui st :
  ui (stopPlayback st) =
  {| userInput := userInput (ui st); reflection := reflection (ui st);
     isLoading := isLoading (ui st); error := error (ui st);
     isSpeaking := false; isFetchingAudio := isFetchingAudio (ui st);
     selectedVoice := selectedVoice (ui st) |}.
Proof. unfold stopPlayback. by destruct (audioSourceRef st). Qed.

Lemma stopPlayback_ref st : audioSourceRef (stopPlayback st) = None.
Proof. unfold stopPlayback. by destruct (audioSourceRef st) eqn:E. Qed.

Lemma stopPlayback_context st :
  audioContextRef (stopPlayback st) = audioContextRef st.
Proof. unfold stopPlayback. by destruct (audioSourceRef st). Qed.

(** What [stopPlayback] does to the graph and to the trace. *)
Lemma stopPlayback_nodes st :
  nodes (stopPlayback st) =
  match audioSourceRef st with
  | Some id =>
      alter (fun n => node_set_connected false (node_stop (node_set_onended false n)))
        id (nodes st)
  | None => nodes st
  end.
Proof.
  unfold stopPlayback. destruct (audioSourceRef st); [|done].
  simpl. by rewrite !list_alter_alter_eq.
Qed.

Lemma stopPlayback_trace st :
  trace (stopPlayback st) =
  trace st ++ match audioSourceRef st with
              | Some id => [Stop id; Disconnect id]
              | None => []
              end.
Proof.
  unfold stopPlayback. destruct (audioSourceRef st); simpl.
  - by rewrite <- app_assoc.
  - by rewrite app_nil_r.
Qed.

Lemma stopPlayback_AudioInv st : AudioInv st -> AudioInv (stopPlayback st).
Proof.
  intros [Href Hplay Hsched Hspeak].
  split; rewrite ?stopPlayback_ref, ?stopPlayback_nodes, ?stopPlayback_ui; try done.
  - intros id n. destruct (audioSourceRef st) as [cur|] eqn:Hcur.
    + rewrite list_lookup_alter. case_decide as Hid.
      * subst id. destruct (nodes st !! cur) as [m|] eqn:Hm; [|done].
        simpl. intros [= <-]. unfold node_stop. simpl.
        destruct (playback m) eqn:Hpm; simpl; rewrite ?Hpm; done.
      * intros Hn Hp. specialize (Hplay id n Hn Hp). congruence.
    + intros Hn Hp. specialize (Hplay id n Hn Hp). congruence.
  - intros id n. destruct (audioSourceRef st) as [cur|] eqn:Hcur; [|by apply Hsched].
    rewrite list_lookup_alter. case_decide as Hid; [|by apply Hsched].
    subst id. destruct (nodes st !! cur) as [m|] eqn:Hm; [|done].
    simpl. intros [= <-]. pose proof (Hsched cur m Hm). unfold node_stop. simpl.
    destruct (playback m) eqn:Hpm; simpl; rewrite ?Hpm; done.
Qed.

(** *** The invariant *)

(** The audio part of the invariant only reads the ref, the graph and
    [isSpeaking]. *)
Lemma AudioInv_frame st st' :
  audioSourceRef st' = audioSourceRef st -> nodes st' = nodes st ->
  isSpeaking (ui st') = isSpeaking (ui st) ->
  AudioInv st -> AudioInv st'.
Proof.
  intros Hr Hn Hs [Href Hplay Hsched Hspeak].
  split; rewrite ?Hr, ?Hn, ?Hs; done.
Qed.

Lemma AudioInv_idle st :
  AudioInv st -> isSpeaking (ui st) = false ->
  audioSourceRef st = None /\
  forall id n, nodes st !! id = Some n -> playback n <> playing.
Proof.
  intros [Href Hplay Hsched Hspeak] Hidle.
  assert (audioSourceRef st = None) as Hnone
    by (destruct (audioSourceRef st); congruence).
  split; [done|]. intros id n Hn Hp. specialize (Hplay id n Hn Hp). congruence.
Qed.

Lemma alter_snoc {A} (f : A -> A) (l : list A) x :
  alter f (length l) (l ++ [x]) = l ++ [f x].
Proof. induction l as [|y l IH]; simpl; [done|]. by f_equal. Qed.

(** [start_source] adds one playing source, with its handler, and points
    the ref at it. *)
Lemma start_source_nodes audioBuffer st :
  nodes (start_source audioBuffer st) =
  nodes st ++ [{| buffer := Some audioBuffer; connected := true;
                  onended := true; playback := playing |}].
Proof. unfold start_source, on_node. simpl. by rewrite !alter_snoc. Qed.

Lemma start_source_ref audioBuffer st :
  audioSourceRef (start_source audioBuffer st) = Some (length (nodes st)).
Proof. done. Qed.

Lemma start_source_trace audioBuffer st :
  trace (start_source audioBuffer st) =
  trace st ++ [CreateBufferSource (length (nodes st)); Connect (length (nodes st));
               Start (length (nodes st))].
Proof. unfold start_source. simpl. by rewrite <- !app_assoc. Qed.

Lemma start_source_AudioInv audioBuffer st :
  AudioInv st -> isSpeaking (ui st) = false ->
  AudioInv (start_source audioBuffer st).
Proof.
  intros Hinv Hidle. destruct (AudioInv_idle st Hinv Hidle) as [Hnone Hquiet].
  destruct Hinv as [Href Hplay Hsched Hspeak].
  split; rewrite ?start_source_ref, ?start_source_nodes; try done.
  - intros id [= <-]. eexists. split.
    + by rewrite lookup_app_r, Nat.sub_diag by lia.
    + done.
  - intros id n Hn Hp. apply lookup_app_Some in Hn as [Hn|[Hlen Hn]].
    + by destruct (Hquiet id n Hn).
    + apply list_lookup_singleton_Some in Hn as [Hid _]. f_equal. lia.
  - intros id n Hn. apply lookup_app_Some in Hn as [Hn|[Hlen Hn]].
    + by apply (Hsched id n).
    + by apply list_lookup_singleton_Some in Hn as [_ <-].
Qed.

(** [handleListen] never writes the input, the reflection, [isLoading]
    or the voice, at any of its pieces. *)
Lemma handleListen_keeps text created st :
  listen_frame (ui st) (ui (handleListen text created st).1).
Proof.
  unfold handleListen, listen_frame.
  destruct (isSpeaking (ui st)); [cbn [fst]; by rewrite stopPlayback_ui|].
  destruct (isFetchingAudio (ui st)); [done|].
  simpl. destruct (audioContextRef st) as [c|];
    [destruct (state c) | destruct created as [c|err]; [destruct (state c)|]];
    done.
Qed.

Lemma handleListen_resume_keeps task settled outcome st :
  listen_frame (ui st) (ui (handleListen_resume task settled outcome st).1).
Proof.
  unfold listen_frame.
  destruct task as [c text voice|c|c [base64Audio|err]|[audioBuffer|err]]; simpl; try done.
  - by destruct settled.
  - by destruct (geminiService.getSpokenReflection outcome).
  - by destruct (decode base64Audio).
Qed.

Lemma handleListen_Inv text created st ls ss st' next :
  Inv {| app := st; listens := ls; submits := ss |} ->
  handleListen text created st = (st', next) ->
  Inv {| app := st'; listens := spawn next ls; submits := ss |}.
Proof.
  intros (Ha & Hl & Hs) Hrun.
  pose proof (handleListen_keeps text created st) as (_ & Hrefl & Hload & _).
  rewrite Hrun in Hrefl, Hload. simpl in Hrefl, Hload.
  split; [|split].
  3:{ unfold SubmitInv in *. simpl in *. by rewrite Hrefl, Hload. }
  all: unfold handleListen in Hrun; unfold ListenInv in *; simpl in *.
  all: destruct (isSpeaking (ui st)) eqn:Hspeak.
  - injection Hrun as <- <-. by apply stopPlayback_AudioInv.
  - destruct (isFetchingAudio (ui st)) eqn:Hfetch; [by injection Hrun as <- <-|].
    assert (forall st0 : Component,
              audioSourceRef st0 = audioSourceRef st -> nodes st0 = nodes st ->
              isSpeaking (ui st0) = false -> AudioInv st0) as Hframe.
    { intros st0 ? ? ?. apply (AudioInv_frame st); congruence. }
    destruct (audioContextRef st) as [c|]; simpl in Hrun.
    + destruct (state c); injection Hrun as <- <-; by apply Hframe.
    + destruct created as [c|err]; [destruct (state c)|];
        injection Hrun as <- <-; by apply Hframe.
  - injection Hrun as <- <-. rewrite stopPlayback_ui. simpl.
    destruct Hl as [[-> Hf]|(task & _ & _ & ?)]; [|congruence]. by left.
  - destruct (isFetchingAudio (ui st)) eqn:Hfetch.
    { injection Hrun as <- <-. simpl. by rewrite Hspeak, Hfetch. }
    destruct Hl as [[-> _]|(task & _ & ? & _)]; [|congruence].
    destruct (audioContextRef st) as [c|]; simpl in Hrun.
    + destruct (state c); injection Hrun as <- <-; simpl; right; eauto.
    + destruct created as [c|err]; [destruct (state c)|];
        injection Hrun as <- <-; simpl; (by left) || (right; eauto).
Qed.

(** While an activation of [handleListen] is suspended it is the only
    one, and nothing plays. *)
Lemma pending_listen st ls ss k task :
  Inv {| app := st; listens := ls; submits := ss |} ->
  ls !! k = Some task ->
  ls = [task] /\ k = 0%nat /\ isFetchingAudio (ui st) = true /\
  isSpeaking (ui st) = false.
Proof.
  intros (_ & Hl & _) Hk. unfold ListenInv in Hl. simpl in Hl.
  destruct Hl as [[-> _]|(task0 & -> & ? & ?)]; [done|].
  apply list_lookup_singleton_Some in Hk as [-> ->]. done.
Qed.

Lemma pending_submit st ls ss k task :
  Inv {| app := st; listens := ls; submits := ss |} ->
  ss !! k = Some task ->
  ss = [task] /\ k = 0%nat /\ isLoading (ui st) = true /\
  reflection (ui st) = "".
Proof.
  intros (_ & _ & Hs) Hk. unfold SubmitInv in Hs. simpl in Hs.
  destruct Hs as [[-> _]|(task0 & -> & ? & ?)]; [done|].
  apply list_lookup_singleton_Some in Hk as [-> ->]. done.
Qed.

Lemma handleListen_resume_Inv task settled outcome st ls ss k st' next :
  Inv {| app := st; listens := ls; submits := ss |} ->
  ls !! k = Some task ->
  handleListen_resume task settled outcome st = (st', next) ->
  Inv {| app := st'; listens := settle k next ls; submits := ss |}.
Proof.
  intros Hinv Hk Hrun.
  destruct (pending_listen _ _ _ _ _ Hinv Hk) as (-> & -> & Hfetch & Hidle).
  destruct Hinv as (Ha & _ & Hs). simpl in Ha.
  pose proof (handleListen_resume_keeps task settled outcome st) as (_ & Hrefl & Hload & _).
  rewrite Hrun in Hrefl, Hload. simpl in Hrefl, Hload.
  split; [|split].
  3:{ unfold SubmitInv in *. simpl in *. by rewrite Hrefl, Hload. }
  all: unfold ListenInv; simpl.
  all: assert (forall st0 : Component,
              audioSourceRef st0 = audioSourceRef st -> nodes st0 = nodes st ->
              isSpeaking (ui st0) = false -> AudioInv st0) as Hframe
         by (intros st0 ? ? ?; apply (AudioInv_frame st); congruence).
  all: destruct task as [c text voice|c|c [base64Audio|err]|[audioBuffer|err]];
    simpl in Hrun.
  all: repeat match type of Hrun with
       | context [match ?x with _ => _ end] => destruct x
       end.
  all: injection Hrun as <- <-; simpl.
  all: try (by apply Hframe).
  all: try (by left).
  all: try (right; by eauto).
  apply (AudioInv_frame (start_source audioBuffer st)); try done.
  by apply start_source_AudioInv.
Qed.

Lemma handleSubmit_keeps st :
  isFetchingAudio (ui (handleSubmit st).1) = isFetchingAudio (ui st).
Proof.
  unfold handleSubmit. destruct (_ || _); [done|]. simpl.
  by destruct (audioSourceRef st).
Qed.

Lemma handleSubmit_Inv st ls ss st' next :
  Inv {| app := st; listens := ls; submits := ss |} ->
  handleSubmit st = (st', next) ->
  Inv {| app := st'; listens := ls; submits := spawn next ss |}.
Proof.
  intros (Ha & Hl & Hs) Hrun. unfold handleSubmit in Hrun.
  destruct (blank (userInput (ui st)) || isLoading (ui st)) eqn:Hguard.
  { injection Hrun as <- <-. done. }
  apply orb_false_elim in Hguard as [_ Hload].
  injection Hrun as <- <-. split; [|split].
  - apply (AudioInv_frame (stopPlayback st)); simpl; try done.
    by apply stopPlayback_AudioInv.
  - unfold ListenInv in *. cbn -[stopPlayback] in *. rewrite stopPlayback_ui. simpl.
    destruct Hl as [?|(task & ? & ? & ?)]; [by left | right; eauto].
  - unfold SubmitInv in *. cbn -[stopPlayback] in *.
    destruct Hs as [[-> _]|(task & _ & ? & _)]; [|congruence].
    right. eauto.
Qed.

Lemma handleSubmit_resume_Inv task outcome st ls ss k st' next :
  Inv {| app := st; listens := ls; submits := ss |} ->
  ss !! k = Some task ->
  handleSubmit_resume task outcome st = (st', next) ->
  Inv {| app := st'; listens := ls; submits := settle k next ss |}.
Proof.
  intros Hinv Hk Hrun.
  destruct (pending_submit _ _ _ _ _ Hinv Hk) as (-> & -> & Hload & Hrefl).
  destruct Hinv as (Ha & Hl & _). simpl in Ha.
  destruct task as [|[result|err]]; simpl in Hrun;
    [destruct (geminiService.getReflection outcome)|..];
    injection Hrun as <- <-.
  all: split; [by apply (AudioInv_frame st)|split].
  all: unfold ListenInv, SubmitInv in *; simpl in *; try done.
  all: try (by left).
  right; eauto.
Qed.

(** The end of a buffer is reached only on the source the ref points to,
    and its handler is still installed. *)
Lemma Ended_Inv st ls ss source n :
  Inv {| app := st; listens := ls; submits := ss |} ->
  nodes st !! source = Some n -> playback n = playing ->
  onended n = true /\
  Inv {| app := source_onended (on_node source (node_set_playback ended) st);
         listens := ls; submits := ss |}.
Proof.
  intros (Ha & Hl & Hs) Hn Hp. simpl in Ha.
  pose proof Ha as [Href Hplay Hsched Hspeak].
  pose proof (Hplay source n Hn Hp) as Hcur.
  destruct (Href source Hcur) as (n' & Hn' & _ & Hhandler).
  assert (n' = n) as -> by congruence. split; [done|].
  split; [|split].
  - split; simpl; try done.
    + intros id m. rewrite list_lookup_alter. case_decide as Hid.
      * subst id. rewrite Hn. simpl. by intros [= <-].
      * intros Hm Hpm. specialize (Hplay id m Hm Hpm). congruence.
    + intros id m. rewrite list_lookup_alter. case_decide as Hid.
      * subst id. rewrite Hn. simpl. by intros [= <-].
      * by apply Hsched.
  - unfold ListenInv in *. simpl in *. rewrite Hcur in Hspeak.
    destruct Hl as [?|(task & ? & ? & ?)]; [by left | congruence].
  - done.
Qed.

(** One event keeps the invariant. *)
Lemma step_Inv e w w' : Inv w -> step e w = Some w' -> Inv w'.
Proof.
  destruct w as [st ls ss]. intros Hinv Hstep.
  destruct e; simpl in Hstep.
  - injection Hstep as <-. destruct Hinv as (Ha & Hl & Hs).
    split; [by apply (AudioInv_frame st)|done].
  - injection Hstep as <-. destruct Hinv as (Ha & Hl & Hs).
    split; [by apply (AudioInv_frame st)|done].
  - destruct (handleSubmit st) as [st' next] eqn:Hrun.
    injection Hstep as <-. by eapply handleSubmit_Inv.
  - destruct (handleListen text created st) as [st' next] eqn:Hrun.
    injection Hstep as <-. by eapply handleListen_Inv.
  - injection Hstep as <-. destruct Hinv as (Ha & Hl & Hs).
    split; [by apply stopPlayback_AudioInv|].
    unfold ListenInv, SubmitInv in *. cbn -[stopPlayback] in *.
    rewrite stopPlayback_ui. simpl. split; [|done].
    destruct Hl as [?|(task & ? & ? & ?)]; [by left | right; eauto].
  - destruct (nodes st !! source) as [n|] eqn:Hn; [|done].
    destruct (playback n) eqn:Hp; try done.
    destruct (Ended_Inv _ _ _ _ _ Hinv Hn Hp) as [Hhandler Hinv'].
    rewrite Hhandler in Hstep. by injection Hstep as <-.
  - destruct (ls !! k) as [task|] eqn:Hk; [|done].
    destruct (handleListen_resume task settled outcome st) as [st' next] eqn:Hrun.
    injection Hstep as <-. by eapply handleListen_resume_Inv.
  - destruct (ss !! k) as [task|] eqn:Hk; [|done].
    destruct (handleSubmit_resume task outcome st) as [st' next] eqn:Hrun.
    injection Hstep as <-. by eapply handleSubmit_resume_Inv.
Qed.

Lemma init_Inv : Inv init.
Proof.
  split; [|split].
  - split; simpl; try done; intros id n Hn; by rewrite lookup_nil in Hn.
  - by left.
  - by left.
Qed.

Lemma reachable_Inv w : reachable w -> Inv w.
Proof.
  induction 1 as [|w e w' _ IH Hstep]; [apply init_Inv | by eapply step_Inv].
Qed.

Lemma run_reachable es w w' : reachable w -> run es w = Some w' -> reachable w'.
Proof.
  revert w. induction es as [|e es IH]; intros w Hw Hrun; simpl in Hrun.
  - by injection Hrun as <-.
  - destruct (step e w) as [w1|] eqn:Hstep; [|done].
    eapply IH; [|done]. by eapply reachable_step.
Qed.

Lemma world_after_reachable es : reachable (world_after es).
Proof.
  unfold world_after. destruct (run es init) as [w|] eqn:Hrun; simpl.
  - eapply run_reachable; [apply reachable_init | done].
  - apply reachable_init.
Qed.

(** While something plays, no activation of [handleListen] is suspended
    and the ref points at the source. *)
Lemma speaking_world st ls ss :
  Inv {| app := st; listens := ls; submits := ss |} ->
  isSpeaking (ui st) = true ->
  ls = [] /\ isFetchingAudio (ui st) = false /\
  exists source n, audioSourceRef st = Some source /\
    nodes st !! source = Some n /\ playback n = playing.
Proof.
  intros (Ha & Hl & _) Hspeak. unfold ListenInv in Hl. simpl in *.
  destruct Hl as [[-> Hf]|(task & _ & _ & ?)]; [|congruence].
  split; [done|]. split; [done|].
  destruct Ha as [Href _ _ Hsp]. rewrite Hspeak in Hsp.
  destruct (audioSourceRef st) as [source|]; [|done].
  destruct (Href source eq_refl) as (n & Hn & Hp & _). eauto.
Qed.

(** After [stopPlayback] nothing plays. *)
Lemma stopPlayback_quiet st :
  AudioInv st ->
  forall id n, nodes (stopPlayback st) !! id = Some n -> playback n <> playing.
Proof.
  intros Ha. apply AudioInv_idle.
  - by apply stopPlayback_AudioInv.
  - by rewrite stopPlayback_ui.
Qed.

(** *** Toggling *)

(** C3. In a reachable state in which something plays, a call of
    [handleListen], with any text, stops and disconnects the playing
    source and nothing else: the controller is idle afterwards, no
    source plays, no activation is left suspended, and the trace gains
    the stop and the disconnect only, so no request for speech. *)
Theorem listen_while_playing_stops w text created :
  reachable w ->
  isSpeaking (ui (app w)) = true ->
  exists w' source,
    step (OnListen text created) w = Some w' /\
    audioSourceRef (app w) = Some source /\
    playbackState (ui (app w')) = Idle /\
    audioSourceRef (app w') = None /\
    (forall id n, nodes (app w') !! id = Some n -> playback n <> playing) /\
    trace (app w') = trace (app w) ++ [Stop source; Disconnect source] /\
    listens w' = [].
Proof.
  intros Hreach Hspeak. pose proof (reachable_Inv w Hreach) as Hinv.
  destruct w as [st ls ss]. simpl in Hspeak.
  destruct (speaking_world _ _ _ Hinv Hspeak)
    as (-> & Hfetch & source & n & Hcur & Hn & Hp).
  exists {| app := stopPlayback st; listens := []; submits := ss |}, source.
  split. { simpl. unfold handleListen. by rewrite Hspeak. }
  cbn -[stopPlayback].
  rewrite stopPlayback_ui, stopPlayback_ref, stopPlayback_trace, Hcur.
  unfold playbackState. simpl. rewrite Hfetch.
  repeat split; try done. apply stopPlayback_quiet. apply Hinv.
Qed.

Lemma listen_while_playing_stops_witness :
  exists w' source,
    step (OnListen "again" (Ok a_context)) (world_after play_events) = Some w' /\
    audioSourceRef (app (world_after play_events)) = Some source /\
    playbackState (ui (app w')) = Idle /\
    audioSourceRef (app w') = None /\
    (forall id n, nodes (app w') !! id = Some n -> playback n <> playing) /\
    trace (app w') = trace (app (world_after play_events))
                     ++ [Stop source; Disconnect source] /\
    listens w' = [].
Proof.
  apply (listen_while_playing_stops (world_after play_events) "again" (Ok a_context)).
  - apply world_after_reachable.
  - vm_compute; reflexivity.
Defined.

(** *** Stopping *)

(** C9. With no playback handle and the controller idle, [stopPlayback]
    changes nothing: not the state, not the graph, not the trace. *)
Theorem stopPlayback_idle_noop st :
  audioSourceRef st = None ->
  playbackState (ui st) = Idle ->
  stopPlayback st = st.
Proof.
  intros Hnone Hidle. unfold stopPlayback. rewrite Hnone.
  destruct st as [[input refl loading err speaking fetching voice] ctx cur ns tr].
  unfold playbackState in Hidle. simpl in *.
  destruct speaking; [done|]. reflexivity.
Qed.

Lemma stopPlayback_idle_noop_witness : stopPlayback (app init) = app init.
Proof. apply (stopPlayback_idle_noop (app init)); reflexivity. Defined.

(** Stopping twice is stopping once, in every state. *)
Lemma stopPlayback_idempotent st : stopPlayback (stopPlayback st) = stopPlayback st.
Proof.
  unfold stopPlayback at 1. rewrite stopPlayback_ref.
  generalize (stopPlayback_ui st). destruct (stopPlayback st) as [u ctx cur ns tr].
  simpl. by intros ->.
Qed.

(** *** One handle *)

(** An event either leaves the number of sources alone or, out of a state
    in which nothing plays, adds one playing source and points the ref
    at it. *)
Lemma step_nodes e w w' :
  Inv w -> step e w = Some w' ->
  length (nodes (app w')) = length (nodes (app w)) \/
  (isSpeaking (ui (app w)) = false /\
   exists audioBuffer,
     nodes (app w') = nodes (app w) ++ [started audioBuffer] /\
     audioSourceRef (app w') = Some (length (nodes (app w)))).
Proof.
  destruct w as [st ls ss]. intros Hinv Hstep.
  assert (length (nodes (stopPlayback st)) = length (nodes st)) as Hstop.
  { rewrite stopPlayback_nodes. destruct (audioSourceRef st); [|done].
    apply length_alter. }
  destruct e; cbn -[stopPlayback] in Hstep.
  - injection Hstep as <-. by left.
  - injection Hstep as <-. by left.
  - unfold handleSubmit in Hstep. destruct (_ || _);
      injection Hstep as <-; left; [done|apply Hstop].
  - unfold handleListen in Hstep.
    destruct (isSpeaking (ui st)); [injection Hstep as <-; left; apply Hstop|].
    destruct (isFetchingAudio (ui st)); [injection Hstep as <-; by left|].
    simpl in Hstep.
    destruct (audioContextRef st) as [c|];
      [destruct (state c) | destruct created as [c|err]; [destruct (state c)|]];
      injection Hstep as <-; by left.
  - injection Hstep as <-. left. apply Hstop.
  - destruct (nodes st !! source) as [n|]; [|done].
    destruct (playback n); try done.
    destruct (onended n); injection Hstep as <-; left; simpl; apply length_alter.
  - destruct (ls !! k) as [task|] eqn:Hk; [|done].
    destruct (pending_listen _ _ _ _ _ Hinv Hk) as (_ & _ & _ & Hidle).
    destruct (handleListen_resume task settled outcome st) as [st' next] eqn:Hrun.
    injection Hstep as <-.
    destruct task as [c text voice|c|c [base64Audio|err]|[audioBuffer|err]];
      simpl in Hrun.
    all: repeat match type of Hrun with
         | context [match ?x with _ => _ end] => destruct x
         end.
    all: injection Hrun as <- <-; try (by left).
    right. split; [done|]. exists audioBuffer. simpl.
    by rewrite !alter_snoc.
  - destruct (ss !! k) as [task|]; [|done].
    destruct (handleSubmit_resume task outcome st) as [st' next] eqn:Hrun.
    injection Hstep as <-.
    destruct task as [|[result|err]]; simpl in Hrun;
      [destruct (geminiService.getReflection outcome)|..];
      injection Hrun as <- <-; by left.
Qed.

(** *** Submitting while something plays *)

(** C6. In a reachable state in which something plays, a submission that
    passes the guard stops and disconnects the playing source before it
    sends the request for text: the three calls enter the trace in that
    order, and nothing plays once the request is out. *)
Theorem submit_stops_playback_first w :
  reachable w ->
  isSpeaking (ui (app w)) = true ->
  blank (userInput (ui (app w))) = false ->
  isLoading (ui (app w)) = false ->
  exists w' source,
    step OnSubmit w = Some w' /\
    audioSourceRef (app w) = Some source /\
    trace (app w') =
      trace (app w) ++ [Stop source; Disconnect source;
                        GenerateText (userInput (ui (app w)))] /\
    (exists n, nodes (app w') !! source = Some n /\
               playback n = stopped /\ connected n = false) /\
    (forall id n, nodes (app w') !! id = Some n -> playback n <> playing) /\
    isSpeaking (ui (app w')) = false /\
    audioSourceRef (app w') = None /\
    submits w' = [AwaitText].
Proof.
  intros Hreach Hspeak Hblank Hload. pose proof (reachable_Inv w Hreach) as Hinv.
  destruct w as [st ls ss]. simpl in Hspeak, Hblank, Hload.
  destruct (speaking_world _ _ _ Hinv Hspeak)
    as (-> & Hfetch & source & n & Hcur & Hn & Hp).
  destruct Hinv as (Ha & _ & Hs). unfold SubmitInv in Hs. simpl in Ha, Hs.
  destruct Hs as [[-> _]|(task & _ & ? & _)]; [|congruence].
  eexists _, source. split.
  { simpl. unfold handleSubmit. rewrite Hblank, Hload. simpl. reflexivity. }
  cbn -[stopPlayback].
  rewrite stopPlayback_ui, stopPlayback_ref, stopPlayback_trace,
    stopPlayback_nodes, Hcur.
  split; [done|]. split; [by rewrite <- app_assoc|]. split.
  { eexists. split; [by rewrite list_lookup_alter_eq, Hn|].
    unfold node_stop. simpl. by rewrite Hp. }
  split; [|done].
  pose proof (stopPlayback_quiet st Ha) as Hquiet.
  by rewrite stopPlayback_nodes, Hcur in Hquiet.
Qed.

Lemma submit_stops_playback_first_witness :
  exists w' source,
    step OnSubmit (world_after (play_events ++ [OnChange "I feel stuck and tired"]))
      = Some w' /\
    audioSourceRef (app (world_after (play_events ++ [OnChange "I feel stuck and tired"])))
      = Some source /\
    trace (app w') =
      trace (app (world_after (play_events ++ [OnChange "I feel stuck and tired"])))
      ++ [Stop source; Disconnect source;
          GenerateText (userInput (ui (app (world_after
            (play_events ++ [OnChange "I feel stuck and tired"])))))] /\
    (exists n, nodes (app w') !! source = Some n /\
               playback n = stopped /\ connected n = false) /\
    (forall id n, nodes (app w') !! id = Some n -> playback n <> playing) /\
    isSpeaking (ui (app w')) = false /\
    audioSourceRef (app w') = None /\
    submits w' = [AwaitText].
Proof.
  apply (submit_stops_playback_first
           (world_after (play_events ++ [OnChange "I feel stuck and tired"]))).
  - apply world_after_reachable.
  - vm_compute; reflexivity.
  - vm_compute; reflexivity.
  - vm_compute; reflexivity.
Defined.

(** *** Failures *)

(** A response without audio and a rejected request leave
    [getSpokenReflection] with the same error. *)
Lemma getSpokenReflection_no_audio response :
  geminiService.falsy (geminiService.inline_audio response) = true ->
  geminiService.getSpokenReflection (Ok response) =
  (Throw (Error "Failed to get spoken reflection from Gemini API."),
   [ConsoleError (Error "No audio data returned from API.")]).
Proof.
  intros Hfalsy. unfold geminiService.getSpokenReflection. simpl.
  by rewrite Hfalsy.
Qed.

Lemma getSpokenReflection_rejected e :
  geminiService.getSpokenReflection (Throw e) =
  (Throw (Error "Failed to get spoken reflection from Gemini API."), [ConsoleError e]).
Proof. done. Qed.

(** C7. A response with no audio payload, arriving for the suspended
    [handleListen], makes [getSpokenReflection] fail with the error it
    also gives for a rejected request; the handler then ends in its
    [catch]: nothing was playing, nothing plays, the graph is as it was,
    the ref is empty, the controller is idle and the message is shown. *)
Theorem no_audio_payload_fails w k audioContext response settled settled' outcome' :
  reachable w ->
  listens w !! k = Some (AwaitSpeech audioContext) ->
  geminiService.falsy (geminiService.inline_audio response) = true ->
  exists w1 w2,
    step (ListenSettled k settled (Ok response)) w = Some w1 /\
    listens w1 =
      [AwaitSpoken audioContext
         (Throw (Error "Failed to get spoken reflection from Gemini API."))] /\
    (forall e, (geminiService.getSpokenReflection (Throw e)).1 =
               (geminiService.getSpokenReflection (Ok response)).1) /\
    step (ListenSettled k settled' outcome') w1 = Some w2 /\
    isSpeaking (ui (app w)) = false /\
    isSpeaking (ui (app w1)) = false /\
    isSpeaking (ui (app w2)) = false /\
    playbackState (ui (app w2)) = Idle /\
    nodes (app w1) = nodes (app w) /\
    nodes (app w2) = nodes (app w) /\
    audioSourceRef (app w2) = None /\
    (forall id n, nodes (app w2) !! id = Some n -> playback n <> playing) /\
    error (ui (app w2)) =
      Some "Sorry, the reflection could not be spoken at this time." /\
    listens w2 = [].
Proof.
  intros Hreach Hk Hfalsy. pose proof (reachable_Inv w Hreach) as Hinv.
  destruct w as [st ls ss]. simpl in Hk.
  destruct (pending_listen _ _ _ _ _ Hinv Hk) as (-> & -> & Hfetch & Hidle).
  destruct Hinv as (Ha & _). simpl in Ha.
  destruct (AudioInv_idle _ Ha Hidle) as [Hnone Hquiet].
  eexists _, _. split.
  { simpl. rewrite (getSpokenReflection_no_audio _ Hfalsy). reflexivity. }
  simpl. rewrite (getSpokenReflection_no_audio _ Hfalsy).
  repeat split; try done.
Qed.

Lemma no_audio_payload_fails_witness :
  exists w1 w2,
    step (ListenSettled 0 (Ok ()) (Ok empty_response)) (world_after listen_events)
      = Some w1 /\
    listens w1 =
      [AwaitSpoken a_context
         (Throw (Error "Failed to get spoken reflection from Gemini API."))] /\
    (forall e, (geminiService.getSpokenReflection (Throw e)).1 =
               (geminiService.getSpokenReflection (Ok empty_response)).1) /\
    step (ListenSettled 0 (Ok ()) (Throw TypeError)) w1 = Some w2 /\
    isSpeaking (ui (app (world_after listen_events))) = false /\
    isSpeaking (ui (app w1)) = false /\
    isSpeaking (ui (app w2)) = false /\
    playbackState (ui (app w2)) = Idle /\
    nodes (app w1) = nodes (app (world_after listen_events)) /\
    nodes (app w2) = nodes (app (world_after listen_events)) /\
    audioSourceRef (app w2) = None /\
    (forall id n, nodes (app w2) !! id = Some n -> playback n <> playing) /\
    error (ui (app w2)) =
      Some "Sorry, the reflection could not be spoken at this time." /\
    listens w2 = [].
Proof.
  apply (no_audio_payload_fails (world_after listen_events) 0 a_context
           empty_response (Ok ()) (Ok ()) (Throw TypeError)).
  - apply world_after_reachable.
  - vm_compute; reflexivity.
  - vm_compute; reflexivity.
Defined.

(** C8. When the request of a suspended [handleSubmit] is rejected,
    [getReflection] fails and the handler ends in its [catch]: the
    reflection is still cleared and not shown, the message is shown,
    [isLoading] is false again, and the handler has returned without a
    second request: the trace gains the two console messages only. *)
Theorem generation_error_is_shown w k e outcome' :
  reachable w ->
  submits w !! k = Some AwaitText ->
  exists w1 w2,
    step (SubmitSettled k (Throw e)) w = Some w1 /\
    step (SubmitSettled k outcome') w1 = Some w2 /\
    reflection (ui (app w2)) = "" /\
    shown_reflection (ui (app w2)) = None /\
    shown_error (ui (app w2)) =
      Some "A reflection could not be generated. The engine is offline. Please try again." /\
    isLoading (ui (app w2)) = false /\
    trace (app w2) =
      trace (app w) ++ [ConsoleError e;
                        ConsoleError (Error "Failed to get reflection from Gemini API.")] /\
    submits w2 = [].
Proof.
  intros Hreach Hk. pose proof (reachable_Inv w Hreach) as Hinv.
  destruct w as [st ls ss]. simpl in Hk.
  destruct (pending_submit _ _ _ _ _ Hinv Hk) as (-> & -> & Hload & Hrefl).
  eexists _, _. split; [reflexivity|]. simpl.
  split; [reflexivity|]. simpl. rewrite <- app_assoc.
  repeat split; try done.
Qed.

Lemma generation_error_is_shown_witness :
  exists w1 w2,
    step (SubmitSettled 0 (Throw (Error "503")))
      (world_after [OnChange "I feel stuck and tired"; OnSubmit]) = Some w1 /\
    step (SubmitSettled 0 (Throw TypeError)) w1 = Some w2 /\
    reflection (ui (app w2)) = "" /\
    shown_reflection (ui (app w2)) = None /\
    shown_error (ui (app w2)) =
      Some "A reflection could not be generated. The engine is offline. Please try again." /\
    isLoading (ui (app w2)) = false /\
    trace (app w2) =
      trace (app (world_after [OnChange "I feel stuck and tired"; OnSubmit]))
      ++ [ConsoleError (Error "503");
          ConsoleError (Error "Failed to get reflection from Gemini API.")] /\
    submits w2 = [].
Proof.
  apply (generation_error_is_shown
           (world_after [OnChange "I feel stuck and tired"; OnSubmit]) 0
           (Error "503") (Throw TypeError)).
  - apply world_after_reachable.
  - vm_compute; reflexivity.
Defined.

(** A submission that passes the guard sends one request. *)
Lemma handleSubmit_one_request st :
  blank (userInput (ui st)) = false -> isLoading (ui st) = false ->
  exists st',
    handleSubmit st = (st', Some AwaitText) /\
    trace st' = trace (stopPlayback st) ++ [GenerateText (userInput (ui st))].
Proof.
  intros Hblank Hload. unfold handleSubmit. rewrite Hblank, Hload. simpl.
  eexists. split; [reflexivity|]. simpl. by destruct (audioSourceRef st).
Qed.

(** *** What a failed [handleListen] leaves alone *)

Lemma handleListen_fail_result err st :
  (handleListen_fail err st).1 =
  {| ui := {| userInput := userInput (ui st); reflection := reflection (ui st);
              isLoading := isLoading (ui st);
              error := Some "Sorry, the reflection could not be spoken at this time.";
              isSpeaking := false; isFetchingAudio := false;
              selectedVoice := selectedVoice (ui st) |};
     audioContextRef := audioContextRef st; audioSourceRef := audioSourceRef st;
     nodes := nodes st; trace := trace st ++ [ConsoleError err] |}.
Proof. done. Qed.

(** C10. The [catch] and [finally] of [handleListen] write the error
    message, [isSpeaking] and [isFetchingAudio] and nothing else of the
    React state; and no piece of the handler, failing or not, writes the
    reflection, the input, [isLoading] or the voice. *)
Theorem handleListen_failure_frame :
  (forall err st,
     ui (handleListen_fail err st).1 =
     {| userInput := userInput (ui st); reflection := reflection (ui st);
        isLoading := isLoading (ui st);
        error := Some "Sorry, the reflection could not be spoken at this time.";
        isSpeaking := false; isFetchingAudio := false;
        selectedVoice := selectedVoice (ui st) |}) /\
  (forall text created st,
     listen_frame (ui st) (ui (handleListen text created st).1)) /\
  (forall task settled outcome st,
     listen_frame (ui st) (ui (handleListen_resume task settled outcome st).1)).
Proof.
  split; [|split].
  - intros err st. by rewrite handleListen_fail_result.
  - apply handleListen_keeps.
  - apply handleListen_resume_keeps.
Qed.

(** *** Two runs *)

(** Audio of odd byte length: the RangeError of the 16-bit view ends the
    handler in its [catch], with the message shown and no source made. *)
Example odd_audio_is_reported :
  exists w,
    run (listen_events ++
         [ ListenSettled 0 (Ok ()) (Ok (audio_response "AA=="));
           ListenSettled 0 (Ok ()) (Throw TypeError);
           ListenSettled 0 (Ok ()) (Throw TypeError) ]) init = Some w /\
    error (ui (app w)) = Some "Sorry, the reflection could not be spoken at this time." /\
    playbackState (ui (app w)) = Idle /\
    nodes (app w) = [] /\
    trace (app w) =
      [NewAudioContext; Resume;
       GenerateSpeech "Your inner well has run dry." "Kore";
       ConsoleError RangeError].
Proof. eexists. split; [vm_compute; reflexivity|]. by vm_compute. Qed.

(** Two samples, played to the end: the handler of [onended] clears the
    ref and the controller is idle again. *)
Example played_to_the_end :
  exists w,
    run (play_events ++ [Ended 0]) init = Some w /\
    playbackState (ui (app w)) = Idle /\
    audioSourceRef (app w) = None /\
    playback <$> nodes (app w) = [ended] /\
    trace (app w) =
      [NewAudioContext; Resume;
       GenerateSpeech "Your inner well has run dry." "Kore";
       CreateBufferSource 0; Connect 0; Start 0].
Proof. eexists. split; [vm_compute; reflexivity|]. by vm_compute. Qed.

End Controller.

(** ** More on the decoder and the buffer builder *)

Module Bytes.

Import Platform App PCM.

(** Induction four elements at a time, as base64 reads sextets. *)
Lemma list_quad_ind {A} (P : list A -> Prop) :
  P [] -> (forall a, P [a]) -> (forall a b, P [a; b]) ->
  (forall a b c, P [a; b; c]) ->
  (forall a b c d l, P l -> P (a :: b :: c :: d :: l)) ->
  forall l, P l.
Proof.
  intros H0 H1 H2 H3 H4 l.
  assert (P l /\ (forall a, P (a :: l)) /\ (forall a b, P (a :: b :: l)) /\
          (forall a b c, P (a :: b :: c :: l))) as [H _]; [|exact H].
  induction l as [|d l (IH0 & IH1 & IH2 & IH3)]; [by auto|].
  repeat split; auto.
Qed.

Lemma base64_value_range c v : base64_value c = Some v -> 0 <= v < 64.
Proof.
  unfold base64_value. intros H.
  repeat match type of H with
  | (if ?b then _ else _) = _ => destruct b eqn:?
  end; try done; injection H as <-; lia.
Qed.

Lemma sextets_range l vs :
  sextets l = Some vs -> Forall (fun v => 0 <= v < 64) vs.
Proof.
  revert vs. induction l as [|c l IH]; intros vs H; simpl in H.
  - injection H as <-. constructor.
  - destruct (base64_value c) as [v|] eqn:Hv; [|done].
    destruct (sextets l) as [vs'|]; [|done]. injection H as <-.
    constructor; [by eapply base64_value_range | by apply IH].
Qed.

Lemma lor_byte x y : 0 <= x < 256 -> 0 <= y < 256 -> 0 <= Z.lor x y < 256.
Proof.
  intros Hx Hy. split; [apply Z.lor_nonneg; lia|].
  destruct (Z.eq_dec (Z.lor x y) 0) as [->|Hne]; [lia|].
  assert (0 <= Z.lor x y) by (apply Z.lor_nonneg; lia).
  change 256 with (2 ^ 8). apply Z.log2_lt_pow2; [lia|].
  rewrite Z.log2_lor by lia. apply Z.max_lub_lt.
  - destruct (Z.eq_dec x 0) as [->|]; [done|]. apply Z.log2_lt_pow2; lia.
  - destruct (Z.eq_dec y 0) as [->|]; [done|]. apply Z.log2_lt_pow2; lia.
Qed.

Lemma octet_1 a b :
  0 <= a < 64 -> 0 <= b < 64 -> 0 <= Z.lor (Z.shiftl a 2) (Z.shiftr b 4) < 256.
Proof.
  intros Ha Hb. apply lor_byte.
  - rewrite Z.shiftl_mul_pow2 by lia. lia.
  - rewrite Z.shiftr_div_pow2 by lia.
    assert (0 <= b / 2 ^ 4 < 4)
      by (split; [apply Z.div_pos | apply Z.div_lt_upper_bound]; lia).
    lia.
Qed.

Lemma octet_2 b c :
  0 <= b < 64 -> 0 <= c < 64 ->
  0 <= Z.lor (Z.shiftl (Z.land b 15) 4) (Z.shiftr c 2) < 256.
Proof.
  intros Hb Hc. apply lor_byte.
  - change 15 with (Z.ones 4). rewrite Z.land_ones, Z.shiftl_mul_pow2 by lia.
    pose proof (Z.mod_pos_bound b (2 ^ 4)). lia.
  - rewrite Z.shiftr_div_pow2 by lia.
    assert (0 <= c / 2 ^ 2 < 16)
      by (split; [apply Z.div_pos | apply Z.div_lt_upper_bound]; lia).
    lia.
Qed.

Lemma octet_3 c d :
  0 <= c < 64 -> 0 <= d < 64 -> 0 <= Z.lor (Z.shiftl (Z.land c 3) 6) d < 256.
Proof.
  intros Hc Hd. apply lor_byte; [|lia].
  change 3 with (Z.ones 2). rewrite Z.land_ones, Z.shiftl_mul_pow2 by lia.
  pose proof (Z.mod_pos_bound c (2 ^ 2)). lia.
Qed.

Lemma octets_range vs bs :
  Forall (fun v => 0 <= v < 64) vs -> octets vs = Some bs ->
  Forall (fun b => 0 <= b < 256) bs.
Proof.
  revert bs. induction vs as [|a|a b|a b c|a b c d vs IH] using list_quad_ind;
    intros bs Hvs H; simpl in H.
  - injection H as <-. constructor.
  - done.
  - injection H as <-. repeat (apply Forall_cons in Hvs as [? Hvs]).
    apply Forall_cons. split; [by apply octet_1 | constructor].
  - injection H as <-. repeat (apply Forall_cons in Hvs as [? Hvs]).
    apply Forall_cons. split; [by apply octet_1|].
    apply Forall_cons. split; [by apply octet_2 | constructor].
  - destruct (octets vs) as [bs'|]; [|done]. injection H as <-.
    apply Forall_cons in Hvs as [? Hvs]. apply Forall_cons in Hvs as [? Hvs].
    apply Forall_cons in Hvs as [? Hvs]. apply Forall_cons in Hvs as [? Hvs].
    apply Forall_cons. split; [by apply octet_1|].
    apply Forall_cons. split; [by apply octet_2|].
    apply Forall_cons. split; [by apply octet_3|].
    by apply IH.
Qed.

(** What [atob] returns are code units below 256. *)
Lemma atob_range s bs : atob s = Ok bs -> Forall (fun b => 0 <= b < 256) bs.
Proof.
  unfold atob. intros H.
  destruct (sextets _) as [vs|] eqn:Hvs; [|done].
  destruct (octets vs) as [bs'|] eqn:Hbs; [|done]. injection H as <-.
  eapply octets_range; [|done]. by eapply sextets_range.
Qed.

(** X1. [decode] returns the binary string of [atob] as it is, one byte
    per code unit and each below 256, and throws what [atob] throws. *)
Theorem decode_is_atob base64 :
  decode base64 = atob base64 /\
  forall bytes, decode base64 = Ok bytes -> Forall (fun b => 0 <= b < 256) bytes.
Proof.
  assert (decode base64 = atob base64) as Heq.
  { destruct (atob base64) as [binaryString|e] eqn:Hatob;
      [|by apply decode_throws].
    rewrite (decode_copies _ _ Hatob). f_equal.
    apply atob_range in Hatob. apply list_eq. intros i.
    rewrite list_lookup_fmap. destruct (binaryString !! i) as [c|] eqn:Hc; [|done].
    simpl. f_equal. rewrite Forall_lookup in Hatob. specialize (Hatob i c Hc).
    unfold ToUint8. apply Z.mod_small. lia. }
  split; [done|]. intros bytes Hbytes. rewrite Heq in Hbytes.
  by eapply atob_range.
Qed.

(** X2. How [decodeAudioData] ends, for every input: a RangeError for an
    odd number of bytes; otherwise a buffer at the given rate with
    [numChannels] channels of equal length, when there is a frame and
    the context takes the channel count and the rate; otherwise a
    NotSupportedError. *)
Theorem decodeAudioData_outcome data ctx rate C :
  (Nat.even (length data) = false ->
     decodeAudioData data ctx rate C = Throw RangeError) /\
  (Nat.even (length data) = true ->
     (0 < Z.of_nat (length data / 2 / C) mod 2 ^ 32 /\
      (1 <= C <= maxChannels ctx)%nat /\
      minSampleRate ctx <= rate <= maxSampleRate ctx ->
      exists buffer,
        decodeAudioData data ctx rate C = Ok buffer /\
        sampleRate buffer = rate /\
        length (channels buffer) = C /\
        Forall (fun channelData =>
                  length channelData =
                  Z.to_nat (Z.of_nat (length data / 2 / C) mod 2 ^ 32))
          (channels buffer)) /\
     (~ (0 < Z.of_nat (length data / 2 / C) mod 2 ^ 32 /\
         (1 <= C <= maxChannels ctx)%nat /\
         minSampleRate ctx <= rate <= maxSampleRate ctx) ->
      decodeAudioData data ctx rate C = Throw NotSupportedError)).
Proof.
  split.
  - intros Hodd. unfold decodeAudioData, Int16Array_of_buffer. by rewrite Hodd.
  - intros Heven.
    assert (Int16Array_of_buffer data = Ok (int16_elements data)) as Hview
      by (unfold Int16Array_of_buffer; by rewrite Heven).
    assert (to_unsigned_long (frame_count (int16_elements data) C) =
            Z.of_nat (length data / 2 / C) mod 2 ^ 32) as Hframes.
    { unfold to_unsigned_long.
      by rewrite Qfloor_frame_count, length_int16_elements. }
    split.
    + intros (Hpos & HC & Hrate).
      destruct (decodeAudioData data ctx rate C) as [buffer|e] eqn:Hrun.
      * exists buffer. split; [done|].
        rewrite (decodeAudioData_closed_form _ _ _ _ _ _ Hview Hrun). simpl.
        split; [done|]. split; [by rewrite length_fmap, length_seq|].
        apply Forall_fmap, Forall_forall. intros channel _. simpl.
        by rewrite length_fmap, length_seq, Hframes.
      * exfalso. unfold decodeAudioData in Hrun. rewrite Hview in Hrun.
        simpl in Hrun. rewrite createBuffer_accepts in Hrun; [done|lia..].
    + intros Hnot. unfold decodeAudioData. rewrite Hview. simpl.
      destruct (createBuffer _ _ _ _) as [created|e] eqn:Hcreated.
      * apply createBuffer_Ok in Hcreated as (? & ? & ? & _).
        exfalso. apply Hnot. rewrite <- Hframes. repeat split; lia.
      * unfold createBuffer in Hcreated. by destruct (_ && _); inversion Hcreated.
Qed.

Lemma sum_list_const {A} (l : list A) (n : nat) :
  sum_list ((fun _ => n) <$> l) = (length l * n)%nat.
Proof. induction l as [|x l IH]; [done|]. csimpl. by rewrite IH. Qed.

(** X3. Every sample of a whole frame is kept, sample [k] in channel
    [k mod C] at position [k / C], and nothing else is: the channels
    hold [len - len mod C] numbers in all, so the last [len mod C]
    samples are left out. *)
Theorem decodeAudioData_keeps_whole_frames data samples ctx rate C buffer :
  Int16Array_of_buffer data = Ok samples ->
  decodeAudioData data ctx rate C = Ok buffer ->
  Z.of_nat (length samples / C) < 2 ^ 32 ->
  (forall k s, (k < C * (length samples / C))%nat -> samples !! k = Some s ->
     exists channelData,
       channels buffer !! (k mod C)%nat = Some channelData /\
       channelData !! (k / C)%nat = Some (Fin (inject_Z s / 32768))) /\
  sum_list (length <$> channels buffer) =
    (length samples - length samples mod C)%nat.
Proof.
  intros Hview Hrun Hsmall.
  assert (0 < C)%nat as HC.
  { unfold decodeAudioData in Hrun. rewrite Hview in Hrun. simpl in Hrun.
    destruct (createBuffer _ _ _ _) as [created|] eqn:Hcreated; [|done].
    apply createBuffer_Ok in Hcreated. lia. }
  rewrite (decodeAudioData_closed_form _ _ _ _ _ _ Hview Hrun). simpl.
  assert (Z.to_nat (to_unsigned_long (frame_count samples C)) = (length samples / C)%nat)
    as ->.
  { unfold to_unsigned_long. rewrite Qfloor_frame_count, Z.mod_small by lia. lia. }
  split.
  - intros k s Hk Hs.
    assert (k mod C < C)%nat by (apply Nat.mod_upper_bound; lia).
    assert (k / C < length samples / C)%nat
      by (apply Nat.Div0.div_lt_upper_bound; lia).
    eexists. split.
    { rewrite list_lookup_fmap, lookup_seq_lt by done. reflexivity. }
    rewrite list_lookup_fmap, lookup_seq_lt by done. simpl.
    replace (k / C * C + k mod C)%nat with k
      by (rewrite (Nat.div_mod k C) at 1 by lia; lia).
    by rewrite Hs.
  - rewrite <- list_fmap_compose.
    transitivity (sum_list ((fun _ => (length samples / C)%nat) <$> seq 0 C)).
    + f_equal. apply list_fmap_ext. intros i x _. simpl.
      by rewrite length_fmap, length_seq.
    + rewrite sum_list_const, length_seq.
      pose proof (Nat.div_mod (length samples) C). lia.
Qed.

Lemma decodeAudioData_keeps_whole_frames_witness :
  (forall k s, (k < 2 * (length [1; 2; 3; 4; 5] / 2))%nat ->
     [1; 2; 3; 4; 5] !! k = Some s ->
     exists channelData,
       [[Fin (1 # 32768); Fin (3 # 32768)];
        [Fin (2 # 32768); Fin (4 # 32768)]] !! (k mod 2)%nat = Some channelData /\
       channelData !! (k / 2)%nat = Some (Fin (inject_Z s / 32768))) /\
  sum_list (length <$> [[Fin (1 # 32768); Fin (3 # 32768)];
                        [Fin (2 # 32768); Fin (4 # 32768)]]) =
    (length [1; 2; 3; 4; 5] - length [1; 2; 3; 4; 5] mod 2)%nat.
Proof.
  apply (decodeAudioData_keeps_whole_frames [1; 0; 2; 0; 3; 0; 4; 0; 5; 0]
           [1; 2; 3; 4; 5] a_context 24000 2
           {| sampleRate := 24000;
              channels := [[Fin (1 # 32768); Fin (3 # 32768)];
                           [Fin (2 # 32768); Fin (4 # 32768)]] |}).
  - reflexivity.
  - vm_compute; reflexivity.
  - vm_compute; reflexivity.
Defined.

End Bytes.

(** ** The two requests *)

Module Requests.

Import Platform.

Lemma drop_while_idem {A} (p : A -> bool) l :
  drop_while p (drop_while p l) = drop_while p l.
Proof.
  induction l as [|x l IH]; [done|]. simpl.
  destruct (p x) eqn:Hp; [done|]. simpl. by rewrite Hp.
Qed.

Lemma drop_while_head {A} (p : A -> bool) l x r :
  drop_while p l = x :: r -> p x = false.
Proof.
  induction l as [|y l IH]; [done|]. simpl.
  destruct (p y) eqn:Hp; [done|]. by intros [= <- _].
Qed.

Lemma drop_while_keeps {A} (p : A -> bool) l :
  match l with [] => True | x :: _ => p x = false end -> drop_while p l = l.
Proof. destruct l as [|x l]; [done|]. simpl. by intros ->. Qed.

Lemma drop_while_suffix {A} (p : A -> bool) l :
  exists pre, l = pre ++ drop_while p l /\ Forall (fun x => p x = true) pre.
Proof.
  induction l as [|x l (pre & Hl & Hpre)]; [by exists []|]. simpl.
  destruct (p x) eqn:Hp.
  - exists (x :: pre). split; [by rewrite Hl at 1 | by constructor].
  - by exists [].
Qed.

Lemma drop_while_nil {A} (p : A -> bool) l :
  drop_while p l = [] <-> Forall (fun x => p x = true) l.
Proof.
  induction l as [|x l IH]; simpl; [done|].
  destruct (p x) eqn:Hp.
  - rewrite IH. split; [by constructor | by inversion 1].
  - split; [done | inversion 1; congruence].
Qed.

Lemma Forall_drop_while {A} (P : A -> Prop) (p : A -> bool) l :
  Forall P l -> Forall P (drop_while p l).
Proof.
  intros H. destruct (drop_while_suffix p l) as (pre & Hl & _).
  rewrite Hl in H. by apply Forall_app in H as [_ ?].
Qed.

Lemma Forall_trim (P : Z -> Prop) l : Forall P l -> Forall P (trim l).
Proof.
  intros H. unfold trim. apply Forall_rev, Forall_drop_while, Forall_rev.
  by apply Forall_drop_while.
Qed.

(** Trimming what is trimmed changes nothing. *)
Lemma trim_idem l : trim (trim l) = trim l.
Proof.
  unfold trim.
  set (l1 := drop_while is_js_whitespace l).
  set (m := drop_while is_js_whitespace (rev l1)).
  assert (drop_while is_js_whitespace (rev m) = rev m) as ->.
  { apply drop_while_keeps. destruct (rev m) as [|x r] eqn:Hm; [done|].
    destruct (drop_while_suffix is_js_whitespace (rev l1)) as (pre & Hl1 & _).
    fold m in Hl1. apply (f_equal (@rev Z)) in Hl1.
    rewrite rev_involutive, rev_app_distr, Hm in Hl1.
    by apply (drop_while_head is_js_whitespace l x (r ++ rev pre)). }
  rewrite rev_involutive. unfold m. by rewrite drop_while_idem.
Qed.

(** Only whitespace, or nothing, trims to nothing. *)
Lemma trim_nil l : trim l = [] <-> Forall (fun c => is_js_whitespace c = true) l.
Proof.
  unfold trim. split.
  - intros H. apply (f_equal (@rev Z)) in H. rewrite rev_involutive in H.
    simpl in H. apply drop_while_nil, Forall_rev in H.
    rewrite rev_involutive in H.
    destruct (drop_while_suffix is_js_whitespace l) as (pre & Hl & Hpre).
    rewrite Hl. by apply Forall_app.
  - intros H. apply drop_while_nil in H. by rewrite H.
Qed.

Lemma code_units_range s : Forall (fun c => 0 <= c < 256) (code_units s).
Proof.
  unfold code_units. apply Forall_fmap, Forall_forall. intros c _. simpl.
  pose proof (Ascii.N_ascii_bounded c). lia.
Qed.

Lemma code_units_of_code_units l :
  Forall (fun c => 0 <= c < 256) l -> code_units (of_code_units l) = l.
Proof.
  intros H. unfold code_units, of_code_units.
  rewrite String.list_ascii_of_string_of_list_ascii, <- list_fmap_compose.
  rewrite <- (list_fmap_id l) at 2. apply list_fmap_ext.
  intros i c Hc. simpl. rewrite Forall_lookup in H. specialize (H i c Hc).
  rewrite Ascii.N_ascii_embedding by lia. lia.
Qed.

(** X4. [getReflection] returns exactly when the request was answered
    with a text, and then that text trimmed: the result has no white
    space at either end and nothing is logged. Every failure, a rejected
    request or an answer without text, is the same error. *)
Theorem getReflection_result outcome :
  (forall r, (geminiService.getReflection outcome).1 = Ok r <->
     exists response t,
       outcome = Ok response /\ geminiService.text response = Some t /\
       r = of_code_units (trim (code_units t))) /\
  (forall r, (geminiService.getReflection outcome).1 = Ok r ->
     trim (code_units r) = code_units r /\
     (geminiService.getReflection outcome).2 = []) /\
  (forall e, (geminiService.getReflection outcome).1 = Throw e ->
     e = Error "Failed to get reflection from Gemini API.").
Proof.
  assert (forall r, (geminiService.getReflection outcome).1 = Ok r ->
            exists response t,
              outcome = Ok response /\ geminiService.text response = Some t /\
              r = of_code_units (trim (code_units t)) /\
              (geminiService.getReflection outcome).2 = []) as Hok.
  { intros r. unfold geminiService.getReflection, geminiService.text_trim.
    destruct outcome as [response|e]; simpl; [|done].
    destruct (geminiService.text response) as [t|] eqn:Ht; simpl; [|done].
    intros [= <-]. by exists response, t. }
  split; [|split].
  - intros r. split.
    + intros H. destruct (Hok r H) as (response & t & ? & ? & ? & _). eauto.
    + intros (response & t & -> & Ht & ->).
      unfold geminiService.getReflection, geminiService.text_trim. simpl.
      by rewrite Ht.
  - intros r H. destruct (Hok r H) as (response & t & _ & _ & -> & Hlog).
    split; [|done].
    rewrite code_units_of_code_units
      by (apply Forall_trim, code_units_range).
    apply trim_idem.
  - intros e. unfold geminiService.getReflection.
    destruct (_ ≫= _); simpl; [done|]. by intros [= <-].
Qed.

(** X5. [getSpokenReflection] returns exactly when the answer carries a
    non-empty string at [candidates[0].content.parts[0].inlineData.data],
    and then that string. Every failure, a rejected request or an answer
    without that string, is the same error, logged once. *)
Theorem getSpokenReflection_result outcome :
  (forall base64Audio,
     (geminiService.getSpokenReflection outcome).1 = Ok base64Audio <->
     exists response,
       outcome = Ok response /\
       geminiService.inline_audio response = Some base64Audio /\
       base64Audio <> "") /\
  (forall e, (geminiService.getSpokenReflection outcome).1 = Throw e ->
     e = Error "Failed to get spoken reflection from Gemini API." /\
     length (geminiService.getSpokenReflection outcome).2 = 1%nat).
Proof.
  unfold geminiService.getSpokenReflection. split.
  - intros base64Audio. destruct outcome as [response|e]; simpl.
    + unfold geminiService.falsy.
      destruct (geminiService.inline_audio response) as [s|] eqn:Haudio; simpl.
      * case_bool_decide as Hs; simpl.
        -- split; [done|]. intros (r & Hr & Hr' & Hne).
           injection Hr as <-. congruence.
        -- split.
           ++ intros [= <-]. by exists response.
           ++ intros (r & Hr & Hr' & _). injection Hr as <-. congruence.
      * split; [done|]. intros (r & Hr & Hr' & _).
        injection Hr as <-. congruence.
    + split; [done|]. by intros (? & ? & _).
  - intros e. destruct (_ ≫= _); simpl; [done|]. by intros [= <-].
Qed.

End Requests.

(** ** The life of a request *)

Module Lifecycle.

Import Platform App Controller.

(** *** Where the outside calls come from *)

Lemma stopPlayback_emits w e :
  Forall (emitted_by w e)
    match audioSourceRef (app w) with
    | Some id => [Stop id; Disconnect id]
    | None => []
    end.
Proof. destruct (audioSourceRef (app w)) eqn:Hcur; repeat constructor; done. Qed.

Ltac trace_delta :=
  first
    [ by (exists []; split; [by rewrite app_nil_r | constructor])
    | eexists; split; [simpl; rewrite <- ?app_assoc; reflexivity|] ].

(** Every event appends to the trace, and only calls it accounts for. *)
Lemma step_emits e w w' :
  step e w = Some w' ->
  exists es, trace (app w') = trace (app w) ++ es /\ Forall (emitted_by w e) es.
Proof.
  destruct w as [st ls ss]. intros Hstep.
  destruct e; cbn -[stopPlayback] in Hstep.
  - injection Hstep as <-. trace_delta.
  - injection Hstep as <-. trace_delta.
  - destruct (blank (userInput (ui st)) || isLoading (ui st)) eqn:Hguard.
    { unfold handleSubmit in Hstep. rewrite Hguard in Hstep.
      injection Hstep as <-. trace_delta. }
    apply orb_false_elim in Hguard as [Hblank Hload].
    destruct (handleSubmit_one_request st Hblank Hload) as (st' & Hrun & Htrace).
    rewrite Hrun in Hstep. injection Hstep as <-. simpl.
    rewrite Htrace, stopPlayback_trace.
    eexists. split; [rewrite <- app_assoc; reflexivity|].
    apply Forall_app. split; [apply (stopPlayback_emits (Build_World st ls ss))|].
    repeat constructor; done.
  - unfold handleListen in Hstep.
    destruct (isSpeaking (ui st)).
    { injection Hstep as <-. cbn -[stopPlayback]. rewrite stopPlayback_trace.
      eexists. split; [reflexivity|].
      apply (stopPlayback_emits (Build_World st ls ss)). }
    destruct (isFetchingAudio (ui st)); [injection Hstep as <-; trace_delta|].
    simpl in Hstep.
    destruct (audioContextRef st) as [c|] eqn:Hctx;
      [destruct (state c) | destruct created as [c|err]; [destruct (state c)|]];
      injection Hstep as <-; trace_delta; repeat constructor; simpl; eauto.
  - injection Hstep as <-. cbn -[stopPlayback]. rewrite stopPlayback_trace.
    eexists. split; [reflexivity|].
    apply (stopPlayback_emits (Build_World st ls ss)).
  - destruct (nodes st !! source) as [n|]; [|done].
    destruct (playback n); try done.
    destruct (onended n); injection Hstep as <-; trace_delta.
  - destruct (ls !! k) as [task|] eqn:Hk; [|done].
    destruct (handleListen_resume task settled outcome st) as [st' next] eqn:Hrun.
    injection Hstep as <-.
    destruct task as [c text voice|c|c [base64Audio|err]|[audioBuffer|err]];
      simpl in Hrun.
    + destruct settled; injection Hrun as <- <-; trace_delta.
      * apply Forall_cons. split; [|constructor]. simpl. right. eauto 10.
      * repeat constructor.
    + unfold geminiService.getSpokenReflection in Hrun.
      destruct outcome as [response|err]; simpl in Hrun;
        [destruct (geminiService.falsy _)|]; injection Hrun as <- <-;
        trace_delta; repeat constructor.
    + destruct (decode base64Audio); injection Hrun as <- <-; trace_delta;
        repeat constructor.
    + injection Hrun as <- <-. trace_delta. repeat constructor.
    + injection Hrun as <- <-. cbn -[start_source]. rewrite start_source_trace.
      eexists. split; [reflexivity|].
      repeat constructor; simpl; eauto 10.
    + injection Hrun as <- <-. trace_delta. repeat constructor.
  - destruct (ss !! k) as [task|]; [|done].
    destruct (handleSubmit_resume task outcome st) as [st' next] eqn:Hrun.
    injection Hstep as <-.
    destruct task as [|[result|err]]; simpl in Hrun.
    + unfold geminiService.getReflection in Hrun.
      destruct (_ ≫= _); injection Hrun as <- <-; trace_delta; repeat constructor.
    + injection Hrun as <- <-. trace_delta.
    + injection Hrun as <- <-. trace_delta. repeat constructor.
Qed.

(** *** The flags *)

(** X6. In every reachable state the three flags say what is going on:
    [isFetchingAudio] is set exactly while an activation of
    [handleListen] is suspended, [isLoading] exactly while one of
    [handleSubmit] is, there is never more than one of either,
    [isSpeaking] is set exactly while a source plays, and never together
    with [isFetchingAudio]. *)
Theorem flags_tell_the_truth w :
  reachable w ->
  (length (listens w) <= 1)%nat /\
  (isFetchingAudio (ui (app w)) = true <-> listens w <> []) /\
  (length (submits w) <= 1)%nat /\
  (isLoading (ui (app w)) = true <-> submits w <> []) /\
  (isSpeaking (ui (app w)) = true <->
     exists id n, nodes (app w) !! id = Some n /\ playback n = playing) /\
  (isSpeaking (ui (app w)) = true -> isFetchingAudio (ui (app w)) = false).
Proof.
  intros Hreach. destruct (reachable_Inv w Hreach) as (Ha & Hl & Hs).
  unfold ListenInv, SubmitInv in *.
  assert ((length (listens w) <= 1)%nat /\
          (isFetchingAudio (ui (app w)) = true <-> listens w <> []) /\
          (isSpeaking (ui (app w)) = true -> isFetchingAudio (ui (app w)) = false))
    as (? & ? & ?).
  { destruct Hl as [[Hls Hf]|(task & Hls & Hf & Hidle)]; rewrite Hls, Hf;
      simpl; repeat split; auto; try done. intros; congruence. }
  assert ((length (submits w) <= 1)%nat /\
          (isLoading (ui (app w)) = true <-> submits w <> [])) as (? & ?).
  { destruct Hs as [[Hss Hload]|(task & Hss & Hload & _)]; rewrite Hss, Hload;
      simpl; repeat split; auto; done. }
  do 4 (split; [done|]). split; [|done]. split.
  - intros Hspeak. destruct Ha as [Href _ _ Hsp]. rewrite Hspeak in Hsp.
    destruct (audioSourceRef (app w)) as [id|]; [|done].
    destruct (Href id eq_refl) as (n & ? & ? & _). eauto.
  - intros (id & n & Hn & Hp). destruct Ha as [_ Hplay _ Hsp].
    by rewrite Hsp, (Hplay id n Hn Hp).
Qed.

Lemma flags_tell_the_truth_witness :
  (length (listens (world_after play_events)) <= 1)%nat /\
  (isFetchingAudio (ui (app (world_after play_events))) = true <->
     listens (world_after play_events) <> []) /\
  (length (submits (world_after play_events)) <= 1)%nat /\
  (isLoading (ui (app (world_after play_events))) = true <->
     submits (world_after play_events) <> []) /\
  (isSpeaking (ui (app (world_after play_events))) = true <->
     exists id n, nodes (app (world_after play_events)) !! id = Some n /\
                  playback n = playing) /\
  (isSpeaking (ui (app (world_after play_events))) = true ->
     isFetchingAudio (ui (app (world_after play_events))) = false).
Proof.
  apply (flags_tell_the_truth (world_after play_events)).
  apply world_after_reachable.
Defined.

(** *** Calls that do nothing *)

Lemma stopPlayback_nothing_to_stop st :
  audioSourceRef st = None -> isSpeaking (ui st) = false -> stopPlayback st = st.
Proof.
  intros Hnone Hidle. unfold stopPlayback. rewrite Hnone.
  destruct st as [[input refl loading err speaking fetching voice] ctx cur ns tr].
  simpl in *. by subst.
Qed.

(** X7. While a request for speech is on its way a further call of
    [handleListen] changes nothing, and while a request for text is on
    its way a further submission changes nothing: no second request, no
    second activation. *)
Theorem duplicate_calls_ignored w :
  reachable w ->
  (listens w <> [] ->
     forall text created, step (OnListen text created) w = Some w) /\
  (submits w <> [] -> step OnSubmit w = Some w).
Proof.
  intros Hreach. destruct (reachable_Inv w Hreach) as (_ & Hl & Hs).
  destruct w as [st ls ss]. unfold ListenInv, SubmitInv in *. simpl in *.
  split.
  - intros Hne text created.
    destruct Hl as [[? _]|(task & -> & Hfetch & Hidle)]; [done|].
    unfold handleListen. by rewrite Hidle, Hfetch.
  - intros Hne. destruct Hs as [[? _]|(task & -> & Hload & _)]; [done|].
    unfold handleSubmit. by rewrite Hload, orb_true_r.
Qed.

Lemma duplicate_calls_ignored_witness :
  (listens (world_after listen_events) <> [] ->
     forall text created,
       step (OnListen text created) (world_after listen_events)
       = Some (world_after listen_events)) /\
  (submits (world_after listen_events) <> [] ->
     step OnSubmit (world_after listen_events) = Some (world_after listen_events)).
Proof.
  apply (duplicate_calls_ignored (world_after listen_events)).
  apply world_after_reachable.
Defined.

(** X8. A submission of an empty input, or of white space only, changes
    nothing in any state: no request is sent, and what plays goes on
    playing. *)
Theorem blank_input_not_submitted w :
  Forall (fun c => is_js_whitespace c = true) (code_units (userInput (ui (app w)))) ->
  step OnSubmit w = Some w.
Proof.
  intros Hblank. apply Requests.trim_nil in Hblank.
  destruct w as [st ls ss]. simpl in *. unfold handleSubmit, blank.
  by rewrite bool_decide_eq_true_2.
Qed.

Lemma blank_input_not_submitted_witness :
  step OnSubmit (world_after (play_events ++ [OnChange "  "]))
  = Some (world_after (play_events ++ [OnChange "  "])).
Proof.
  apply (blank_input_not_submitted (world_after (play_events ++ [OnChange "  "]))).
  vm_compute. repeat constructor.
Defined.

(** X9. A request for speech on its way is not cancelled by stopping:
    the cleanup's [stopPlayback] changes nothing then, and a submission
    leaves the suspended activation, the graph and the ref as they are:
    the request stays on its way. *)
Theorem stop_does_not_cancel_request w :
  reachable w ->
  listens w <> [] ->
  step Cleanup w = Some w /\
  (forall w', step OnSubmit w = Some w' ->
     listens w' = listens w /\
     isFetchingAudio (ui (app w')) = true /\
     nodes (app w') = nodes (app w) /\
     audioSourceRef (app w') = audioSourceRef (app w)).
Proof.
  intros Hreach Hne. destruct (reachable_Inv w Hreach) as (Ha & Hl & _).
  destruct w as [st ls ss]. unfold ListenInv in Hl. simpl in *.
  destruct Hl as [[? _]|(task & -> & Hfetch & Hidle)]; [done|].
  destruct (AudioInv_idle _ Ha Hidle) as [Hnone _].
  pose proof (stopPlayback_nothing_to_stop st Hnone Hidle) as Hstop.
  split; [by rewrite Hstop|].
  intros w' Hstep. unfold handleSubmit in Hstep.
  destruct (_ || _); injection Hstep as <-; [done|].
  rewrite Hstop. by simpl.
Qed.

Lemma stop_does_not_cancel_request_witness :
  step Cleanup (world_after listen_events) = Some (world_after listen_events) /\
  (forall w', step OnSubmit (world_after listen_events) = Some w' ->
     listens w' = listens (world_after listen_events) /\
     isFetchingAudio (ui (app w')) = true /\
     nodes (app w') = nodes (app (world_after listen_events)) /\
     audioSourceRef (app w') = audioSourceRef (app (world_after listen_events))).
Proof.
  apply (stop_does_not_cancel_request (world_after listen_events)).
  - apply world_after_reachable.
  - vm_compute. discriminate.
Defined.

(** *** A submission that succeeds *)

(** X10. When the request of a suspended [handleSubmit] is answered with
    a text, the reflection becomes that text trimmed, the input is
    cleared and [isLoading] is false again; the error, the audio state
    and the trace are as before, and the reflection is on the screen
    when it is not empty and no error is shown. *)
Theorem submit_success w k response t outcome' :
  reachable w ->
  submits w !! k = Some AwaitText ->
  geminiService.text response = Some t ->
  exists w1 w2,
    step (SubmitSettled k (Ok response)) w = Some w1 /\
    step (SubmitSettled k outcome') w1 = Some w2 /\
    reflection (ui (app w2)) = of_code_units (trim (code_units t)) /\
    userInput (ui (app w2)) = "" /\
    isLoading (ui (app w2)) = false /\
    error (ui (app w2)) = error (ui (app w)) /\
    trace (app w2) = trace (app w) /\
    nodes (app w2) = nodes (app w) /\
    audioSourceRef (app w2) = audioSourceRef (app w) /\
    isSpeaking (ui (app w2)) = isSpeaking (ui (app w)) /\
    submits w2 = [] /\
    (shown_error (ui (app w)) = None ->
     of_code_units (trim (code_units t)) <> "" ->
     shown_reflection (ui (app w2)) = Some (of_code_units (trim (code_units t)))).
Proof.
  intros Hreach Hk Ht. pose proof (reachable_Inv w Hreach) as Hinv.
  destruct w as [st ls ss]. simpl in Hk.
  destruct (pending_submit _ _ _ _ _ Hinv Hk) as (-> & -> & Hload & Hrefl).
  assert (geminiService.getReflection (Ok response) =
          (Ok (of_code_units (trim (code_units t))), [])) as Hget.
  { unfold geminiService.getReflection, geminiService.text_trim. simpl.
    by rewrite Ht. }
  eexists _, _. split. { simpl. rewrite Hget. reflexivity. }
  split; [reflexivity|]. simpl. rewrite app_nil_r.
  repeat split; try done.
  intros Herr Hne. unfold shown_reflection, shown_error in *. simpl in *.
  destruct (error (ui st)) as [e|]; [destruct (bool_decide (e = "")); [|done]|];
    simpl; by rewrite bool_decide_eq_false_2.
Qed.

Lemma submit_success_witness :
  exists w1 w2,
    step (SubmitSettled 0 (Ok (text_response " You stand at a crossroads. ")))
      (world_after [OnChange "I feel stuck and tired"; OnSubmit]) = Some w1 /\
    step (SubmitSettled 0 (Throw TypeError)) w1 = Some w2 /\
    reflection (ui (app w2)) =
      of_code_units (trim (code_units " You stand at a crossroads. ")) /\
    userInput (ui (app w2)) = "" /\
    isLoading (ui (app w2)) = false /\
    error (ui (app w2)) =
      error (ui (app (world_after [OnChange "I feel stuck and tired"; OnSubmit]))) /\
    trace (app w2) =
      trace (app (world_after [OnChange "I feel stuck and tired"; OnSubmit])) /\
    nodes (app w2) =
      nodes (app (world_after [OnChange "I feel stuck and tired"; OnSubmit])) /\
    audioSourceRef (app w2) =
      audioSourceRef (app (world_after [OnChange "I feel stuck and tired"; OnSubmit])) /\
    isSpeaking (ui (app w2)) =
      isSpeaking (ui (app (world_after [OnChange "I feel stuck and tired"; OnSubmit]))) /\
    submits w2 = [] /\
    (shown_error (ui (app (world_after [OnChange "I feel stuck and tired"; OnSubmit])))
       = None ->
     of_code_units (trim (code_units " You stand at a crossroads. ")) <> "" ->
     shown_reflection (ui (app w2)) =
       Some (of_code_units (trim (code_units " You stand at a crossroads. ")))).
Proof.
  apply (submit_success (world_after [OnChange "I feel stuck and tired"; OnSubmit]) 0
           (text_response " You stand at a crossroads. ")
           " You stand at a crossroads. " (Throw TypeError)).
  - apply world_after_reachable.
  - vm_compute; reflexivity.
  - reflexivity.
Defined.

(** *** A request for speech that succeeds *)

(** One channel: the buffer holds the samples in order, each over 32768. *)
Lemma decodeAudioData_mono bytes samples ctx :
  Int16Array_of_buffer bytes = Ok samples ->
  (1 <= length samples)%nat -> Z.of_nat (length samples) < 2 ^ 32 ->
  (1 <= maxChannels ctx)%nat ->
  minSampleRate ctx <= 24000 <= maxSampleRate ctx ->
  decodeAudioData bytes ctx 24000 1 =
  Ok {| sampleRate := 24000;
        channels := [(fun s => Fin (inject_Z s / 32768)) <$> samples] |}.
Proof.
  intros Hview Hlen Hsmall Hmax Hrate.
  assert (to_unsigned_long (frame_count samples 1) = Z.of_nat (length samples))
    as Hframes.
  { unfold to_unsigned_long. rewrite PCM.Qfloor_frame_count, Nat.div_1_r.
    apply Z.mod_small. lia. }
  destruct (decodeAudioData bytes ctx 24000 1) as [buffer|e] eqn:Hrun.
  - rewrite (PCM.decodeAudioData_closed_form _ _ _ _ _ _ Hview Hrun).
    rewrite Hframes, Nat2Z.id. simpl. do 3 f_equal.
    apply list_eq. intros i. rewrite !list_lookup_fmap.
    destruct (samples !! i) as [s|] eqn:Hs.
    + rewrite lookup_seq_lt by (by eapply lookup_lt_Some). simpl.
      replace (i * 1 + 0)%nat with i by lia. by rewrite Hs.
    + by rewrite lookup_seq_ge by (by apply lookup_ge_None).
  - exfalso. unfold decodeAudioData in Hrun. rewrite Hview in Hrun. simpl in Hrun.
    rewrite PCM.createBuffer_accepts in Hrun; [done|lia..].
Qed.

(** X11. When the request of a suspended [handleListen] is answered with
    base64 audio that [atob] accepts, of an even and non-zero number of
    bytes, and the context takes one channel at 24000 Hz, the handler
    ends playing: one source is added to the graph, holding one channel
    with every sample over 32768 in order, connected, with the handler
    installed, started; the ref points at it and [isFetchingAudio] is
    false again. *)
Theorem listen_success w k audioContext response base64Audio bytes samples
    settled1 settled2 outcome2 settled3 outcome3 :
  reachable w ->
  listens w !! k = Some (AwaitSpeech audioContext) ->
  geminiService.inline_audio response = Some base64Audio ->
  base64Audio <> "" ->
  decode base64Audio = Ok bytes ->
  Int16Array_of_buffer bytes = Ok samples ->
  (1 <= length samples)%nat -> Z.of_nat (length samples) < 2 ^ 32 ->
  (1 <= maxChannels audioContext)%nat ->
  minSampleRate audioContext <= 24000 <= maxSampleRate audioContext ->
  exists w1 w2 w3,
    step (ListenSettled k settled1 (Ok response)) w = Some w1 /\
    step (ListenSettled k settled2 outcome2) w1 = Some w2 /\
    step (ListenSettled k settled3 outcome3) w2 = Some w3 /\
    playbackState (ui (app w3)) = Playing /\
    isFetchingAudio (ui (app w3)) = false /\
    nodes (app w3) =
      nodes (app w) ++
      [started {| sampleRate := 24000;
                  channels := [(fun s => Fin (inject_Z s / 32768)) <$> samples] |}] /\
    audioSourceRef (app w3) = Some (length (nodes (app w))) /\
    trace (app w3) =
      trace (app w) ++ [CreateBufferSource (length (nodes (app w)));
                        Connect (length (nodes (app w)));
                        Start (length (nodes (app w)))] /\
    error (ui (app w3)) = error (ui (app w)) /\
    listens w3 = [].
Proof.
  intros Hreach Hk Haudio Hne Hdecode Hview Hlen Hsmall Hmax Hrate.
  pose proof (reachable_Inv w Hreach) as Hinv.
  destruct w as [st ls ss]. simpl in Hk.
  destruct (pending_listen _ _ _ _ _ Hinv Hk) as (-> & -> & Hfetch & Hidle).
  assert (geminiService.getSpokenReflection (Ok response) = (Ok base64Audio, []))
    as Hget.
  { unfold geminiService.getSpokenReflection, geminiService.falsy. simpl.
    rewrite Haudio. simpl. by rewrite bool_decide_eq_false_2. }
  pose proof (decodeAudioData_mono _ _ _ Hview Hlen Hsmall Hmax Hrate) as Hmono.
  eexists _, _, _. split. { simpl. rewrite Hget. reflexivity. }
  split. { simpl. rewrite Hdecode, Hmono. reflexivity. }
  split; [reflexivity|].
  cbn -[start_source].
  rewrite start_source_nodes, start_source_ref, start_source_trace.
  simpl. rewrite app_nil_r. repeat split; done.
Qed.

Lemma listen_success_witness :
  exists w1 w2 w3,
    step (ListenSettled 0 (Ok ()) (Ok (audio_response "AQD/fw==")))
      (world_after listen_events) = Some w1 /\
    step (ListenSettled 0 (Ok ()) (Throw TypeError)) w1 = Some w2 /\
    step (ListenSettled 0 (Ok ()) (Throw TypeError)) w2 = Some w3 /\
    playbackState (ui (app w3)) = Playing /\
    isFetchingAudio (ui (app w3)) = false /\
    nodes (app w3) =
      nodes (app (world_after listen_events)) ++
      [started {| sampleRate := 24000;
                  channels := [(fun s => Fin (inject_Z s / 32768)) <$> [1; 32767]] |}] /\
    audioSourceRef (app w3) = Some (length (nodes (app (world_after listen_events)))) /\
    trace (app w3) =
      trace (app (world_after listen_events)) ++
      [CreateBufferSource (length (nodes (app (world_after listen_events))));
       Connect (length (nodes (app (world_after listen_events))));
       Start (length (nodes (app (world_after listen_events))))] /\
    error (ui (app w3)) = error (ui (app (world_after listen_events))) /\
    listens w3 = [].
Proof.
  apply (listen_success (world_after listen_events) 0 a_context
           (audio_response "AQD/fw==") "AQD/fw==" [1; 0; 255; 127] [1; 32767]
           (Ok ()) (Ok ()) (Throw TypeError) (Ok ()) (Throw TypeError)).
  - apply world_after_reachable.
  - vm_compute; reflexivity.
  - reflexivity.
  - discriminate.
  - vm_compute; reflexivity.
  - vm_compute; reflexivity.
  - simpl; lia.
  - vm_compute; reflexivity.
  - simpl; lia.
  - simpl; lia.
Defined.

(** *** The end of the buffer *)

(** X12. When a playing source reaches the end of its buffer, its
    [onended] handler runs: the source has ended, the ref is empty, no
    source plays, the controller is idle; nothing is called (the source
    is neither stopped nor disconnected) and no activation is touched. *)
Theorem natural_end w source n :
  reachable w ->
  nodes (app w) !! source = Some n ->
  playback n = playing ->
  exists w',
    step (Ended source) w = Some w' /\
    playbackState (ui (app w')) = Idle /\
    audioSourceRef (app w') = None /\
    nodes (app w') = alter (node_set_playback ended) source (nodes (app w)) /\
    (forall id m, nodes (app w') !! id = Some m -> playback m <> playing) /\
    trace (app w') = trace (app w) /\
    listens w' = [] /\
    submits w' = submits w.
Proof.
  intros Hreach Hn Hp. pose proof (reachable_Inv w Hreach) as Hinv.
  destruct w as [st ls ss]. simpl in Hn.
  destruct (Ended_Inv _ _ _ _ _ Hinv Hn Hp) as [Hhandler (Ha' & _)].
  assert (isSpeaking (ui st) = true) as Hspeak.
  { destruct Hinv as ([_ Hplay _ Hsp] & _). simpl in *.
    by rewrite Hsp, (Hplay source n Hn Hp). }
  destruct (speaking_world _ _ _ Hinv Hspeak) as (-> & Hfetch & _).
  eexists. split. { simpl. rewrite Hn, Hp, Hhandler. reflexivity. }
  simpl. unfold playbackState. simpl. rewrite Hfetch.
  repeat split; try done.
  apply (AudioInv_idle _ Ha'). done.
Qed.

Lemma natural_end_witness :
  exists w',
    step (Ended 0) (world_after play_events) = Some w' /\
    playbackState (ui (app w')) = Idle /\
    audioSourceRef (app w') = None /\
    nodes (app w') =
      alter (node_set_playback ended) 0%nat (nodes (app (world_after play_events))) /\
    (forall id m, nodes (app w') !! id = Some m -> playback m <> playing) /\
    trace (app w') = trace (app (world_after play_events)) /\
    listens w' = [] /\
    submits w' = submits (world_after play_events).
Proof.
  apply (natural_end (world_after play_events) 0
           (started {| sampleRate := 24000;
                       channels := [[Fin (1 # 32768); Fin (32767 # 32768)]] |})).
  - apply world_after_reachable.
  - vm_compute; reflexivity.
  - reflexivity.
Defined.

(** *** How a call of [handleListen] can end *)

(** X13. Every resumption of a suspended [handleListen] does one of
    three things. It suspends again, with nothing playing and the graph
    and the error untouched. Or it fails: the handler has returned, the
    controller is idle with the message shown, the graph is untouched.
    Or it was the last piece: the handler has returned, the controller
    is playing, and exactly one started source was added, to which the
    ref points. *)
Theorem listen_outcomes w k task settled outcome w' :
  reachable w ->
  listens w !! k = Some task ->
  step (ListenSettled k settled outcome) w = Some w' ->
  (exists task', listens w' = [task'] /\
     isFetchingAudio (ui (app w')) = true /\ isSpeaking (ui (app w')) = false /\
     nodes (app w') = nodes (app w) /\ error (ui (app w')) = error (ui (app w))) \/
  (listens w' = [] /\ playbackState (ui (app w')) = Idle /\
   nodes (app w') = nodes (app w) /\ audioSourceRef (app w') = None /\
   error (ui (app w')) =
     Some "Sorry, the reflection could not be spoken at this time.") \/
  (exists audioBuffer, task = AwaitDecoded (Ok audioBuffer) /\
     listens w' = [] /\ playbackState (ui (app w')) = Playing /\
     nodes (app w') = nodes (app w) ++ [started audioBuffer] /\
     audioSourceRef (app w') = Some (length (nodes (app w))) /\
     error (ui (app w')) = error (ui (app w))).
Proof.
  intros Hreach Hk Hstep. pose proof (reachable_Inv w Hreach) as Hinv.
  destruct w as [st ls ss]. simpl in Hk, Hstep. rewrite Hk in Hstep.
  destruct (pending_listen _ _ _ _ _ Hinv Hk) as (-> & -> & Hfetch & Hidle).
  destruct Hinv as (Ha & _). simpl in Ha.
  destruct (AudioInv_idle _ Ha Hidle) as [Hnone _].
  destruct (handleListen_resume task settled outcome st) as [st' next] eqn:Hrun.
  injection Hstep as <-.
  destruct task as [c text voice|c|c [base64Audio|err]|[audioBuffer|err]];
    simpl in Hrun.
  all: repeat match type of Hrun with
       | context [match ?x with _ => _ end] => destruct x
       end.
  all: injection Hrun as <- <-.
  all: try (left; eexists; by repeat split).
  all: try (right; left; by repeat split).
  right. right. exists audioBuffer. cbn -[start_source].
  rewrite start_source_nodes, start_source_ref. by repeat split.
Qed.

Lemma listen_outcomes_witness :
  (exists task',
     listens (world_after no_audio_events) = [task'] /\
     isFetchingAudio (ui (app (world_after no_audio_events))) = true /\
     isSpeaking (ui (app (world_after no_audio_events))) = false /\
     nodes (app (world_after no_audio_events))
       = nodes (app (world_after listen_events)) /\
     error (ui (app (world_after no_audio_events)))
       = error (ui (app (world_after listen_events)))) \/
  (listens (world_after no_audio_events) = [] /\
   playbackState (ui (app (world_after no_audio_events))) = Idle /\
   nodes (app (world_after no_audio_events))
     = nodes (app (world_after listen_events)) /\
   audioSourceRef (app (world_after no_audio_events)) = None /\
   error (ui (app (world_after no_audio_events))) =
     Some "Sorry, the reflection could not be spoken at this time.") \/
  (exists audioBuffer, AwaitSpeech a_context = AwaitDecoded (Ok audioBuffer) /\
     listens (world_after no_audio_events) = [] /\
     playbackState (ui (app (world_after no_audio_events))) = Playing /\
     nodes (app (world_after no_audio_events))
       = nodes (app (world_after listen_events)) ++ [started audioBuffer] /\
     audioSourceRef (app (world_after no_audio_events))
       = Some (length (nodes (app (world_after listen_events)))) /\
     error (ui (app (world_after no_audio_events)))
       = error (ui (app (world_after listen_events)))).
Proof.
  apply (listen_outcomes (world_after listen_events) 0 (AwaitSpeech a_context)
           (Ok ()) (Ok empty_response)).
  - apply world_after_reachable.
  - vm_compute; reflexivity.
  - vm_compute; reflexivity.
Defined.

(** *** The audio context *)

Lemma step_context e w w' c :
  step e w = Some w' -> audioContextRef (app w) = Some c ->
  audioContextRef (app w') = Some c \/
  audioContextRef (app w') = Some (context_running c).
Proof.
  destruct w as [st ls ss]. intros Hstep Hctx. simpl in Hctx.
  destruct e; cbn -[stopPlayback] in Hstep.
  - injection Hstep as <-. by left.
  - injection Hstep as <-. by left.
  - unfold handleSubmit in Hstep. destruct (_ || _);
      injection Hstep as <-; left; [done|].
    cbn -[stopPlayback]. by rewrite stopPlayback_context.
  - unfold handleListen in Hstep.
    destruct (isSpeaking (ui st)).
    { injection Hstep as <-. left. cbn -[stopPlayback].
      by rewrite stopPlayback_context. }
    destruct (isFetchingAudio (ui st)); [injection Hstep as <-; by left|].
    simpl in Hstep. rewrite Hctx in Hstep.
    destruct (state c); injection Hstep as <-; by left.
  - injection Hstep as <-. left. cbn -[stopPlayback].
    by rewrite stopPlayback_context.
  - destruct (nodes st !! source) as [n|]; [|done].
    destruct (playback n); try done.
    destruct (onended n); injection Hstep as <-; by left.
  - destruct (ls !! k) as [task|] eqn:Hk; [|done].
    destruct (handleListen_resume task settled outcome st) as [st' next] eqn:Hrun.
    injection Hstep as <-.
    destruct task as [c0 text voice|c0|c0 [base64Audio|err]|[audioBuffer|err]];
      simpl in Hrun.
    all: repeat match type of Hrun with
         | context [match ?x with _ => _ end] => destruct x
         end.
    all: injection Hrun as <- <-; simpl; rewrite ?Hctx; auto.
  - destruct (ss !! k) as [task|]; [|done].
    destruct (handleSubmit_resume task outcome st) as [st' next] eqn:Hrun.
    injection Hstep as <-.
    destruct task as [|[result|err]]; simpl in Hrun;
      [destruct (geminiService.getReflection outcome)|..];
      injection Hrun as <- <-; by left.
Qed.

(** X14. The audio context is made once. From a state in which the ref
    holds a context, every event leaves a context in the ref, with the
    same limits, and constructs no other. *)
Theorem context_made_once e w w' c :
  step e w = Some w' ->
  audioContextRef (app w) = Some c ->
  (exists c', audioContextRef (app w') = Some c' /\
     maxChannels c' = maxChannels c /\
     minSampleRate c' = minSampleRate c /\
     maxSampleRate c' = maxSampleRate c) /\
  (exists es, trace (app w') = trace (app w) ++ es /\ NewAudioContext ∉ es).
Proof.
  intros Hstep Hctx. split.
  - destruct (step_context e w w' c Hstep Hctx) as [->| ->]; eexists; by repeat split.
  - destruct (step_emits e w w' Hstep) as (es & Htrace & Hes).
    exists es. split; [done|]. intros Hin.
    rewrite Forall_forall in Hes. destruct (Hes _ Hin) as [Hnone _]. congruence.
Qed.

Lemma context_made_once_witness :
  (exists c',
     audioContextRef (app (world_after (listen_events ++ [OnListen "again" (Ok a_context)])))
       = Some c' /\
     maxChannels c' = maxChannels (context_running a_context) /\
     minSampleRate c' = minSampleRate (context_running a_context) /\
     maxSampleRate c' = maxSampleRate (context_running a_context)) /\
  (exists es,
     trace (app (world_after (listen_events ++ [OnListen "again" (Ok a_context)])))
       = trace (app (world_after listen_events)) ++ es /\
     NewAudioContext ∉ es).
Proof.
  apply (context_made_once (OnListen "again" (Ok a_context))
           (world_after listen_events)
           (world_after (listen_events ++ [OnListen "again" (Ok a_context)]))
           (context_running a_context)).
  - vm_compute; reflexivity.
  - vm_compute; reflexivity.
Defined.

(** *** What is sent *)

(** X15. No request for text ever carries an empty or blank prompt:
    every prompt in the trace of a reachable state passed the guard of
    [handleSubmit]. *)
Theorem prompts_not_blank w :
  reachable w ->
  Forall (fun x => forall contents, x = GenerateText contents -> blank contents = false)
    (trace (app w)).
Proof.
  induction 1 as [|w e w' _ IH Hstep]; [constructor|].
  destruct (step_emits e w w' Hstep) as (es & -> & Hes).
  apply Forall_app. split; [done|].
  eapply Forall_impl; [exact Hes|]. intros x Hx contents ->.
  by destruct Hx as (_ & _ & ? & _).
Qed.

Lemma prompts_not_blank_witness :
  Forall (fun x => forall contents, x = GenerateText contents -> blank contents = false)
    (trace (app (world_after [OnChange "I feel stuck and tired"; OnSubmit]))).
Proof.
  apply (prompts_not_blank (world_after [OnChange "I feel stuck and tired"; OnSubmit])).
  apply world_after_reachable.
Defined.

(** *** Through the controls *)

Lemma ui_reachable_reachable w : ui_reachable w -> reachable w.
Proof.
  induction 1 as [|w e w' _ IH _ Hstep]; [constructor | by eapply reachable_step].
Qed.

Lemma ui_run_reachable es w w' :
  ui_reachable w -> ui_run es w = Some w' -> ui_reachable w'.
Proof.
  revert w. induction es as [|e es IH]; intros w Hw Hrun; simpl in Hrun.
  - by injection Hrun as <-.
  - destruct (enabled e w) eqn:He; [|done].
    destruct (step e w) as [w1|] eqn:Hstep; [|done].
    eapply IH; [|done]. by eapply ui_reachable_step.
Qed.

Lemma ui_world_after_reachable es : ui_reachable (ui_world_after es).
Proof.
  unfold ui_world_after. destruct (ui_run es init) as [w|] eqn:Hrun; simpl.
  - eapply ui_run_reachable; [apply ui_reachable_init | done].
  - apply ui_reachable_init.
Qed.

Lemma shown_reflection_Some u t : shown_reflection u = Some t -> t <> "".
Proof.
  unfold shown_reflection.
  destruct (negb (isLoading u) && _ && negb (bool_decide (reflection u = "")))
    eqn:Hc; [|done].
  intros [= <-]. apply andb_prop in Hc as [_ Hc].
  apply negb_true_iff in Hc. by apply bool_decide_eq_false in Hc.
Qed.

(** The voice changes only through the picker. *)
Lemma step_voice e w w' :
  step e w = Some w' ->
  selectedVoice (ui (app w')) = selectedVoice (ui (app w)) \/
  exists value, e = OnSelect value /\ selectedVoice (ui (app w')) = value.
Proof.
  destruct w as [st ls ss]. intros Hstep.
  destruct e; cbn -[stopPlayback] in Hstep.
  - injection Hstep as <-. by left.
  - injection Hstep as <-. right. by eexists.
  - unfold handleSubmit in Hstep. destruct (_ || _);
      injection Hstep as <-; left; [done|].
    cbn -[stopPlayback]. by rewrite stopPlayback_ui.
  - pose proof (handleListen_keeps text created st) as (_ & _ & _ & Hv).
    destruct (handleListen text created st). injection Hstep as <-. by left.
  - injection Hstep as <-. left. cbn -[stopPlayback]. by rewrite stopPlayback_ui.
  - destruct (nodes st !! source) as [n|]; [|done].
    destruct (playback n); try done.
    destruct (onended n); injection Hstep as <-; by left.
  - destruct (ls !! k) as [task|]; [|done].
    pose proof (handleListen_resume_keeps task settled outcome st) as (_ & _ & _ & Hv).
    destruct (handleListen_resume task settled outcome st).
    injection Hstep as <-. by left.
  - destruct (ss !! k) as [task|]; [|done].
    destruct (handleSubmit_resume task outcome st) as [st' next] eqn:Hrun.
    injection Hstep as <-.
    destruct task as [|[result|err]]; simpl in Hrun;
      [destruct (geminiService.getReflection outcome)|..];
      injection Hrun as <- <-; by left.
Qed.

Lemma elem_of_settle {T} (x : T) k next (tasks : list T) :
  x ∈ settle k next tasks -> next = Some x \/ x ∈ tasks.
Proof.
  destruct next as [t|]; simpl.
  - intros Hin. apply list_elem_of_lookup in Hin as [i Hi].
    apply list_lookup_insert_Some in Hi as [(_ & -> & _)|[_ Hi]]; [by left|].
    right. by eapply list_elem_of_lookup_2.
  - intros Hin. right. by eapply list_elem_of_delete_inv.
Qed.

(** An activation waits at [resume()] only right after the call, with
    the argument of the call and the voice selected then. *)
Lemma step_resume_tasks e w w' c text voice :
  step e w = Some w' ->
  AwaitResume c text voice ∈ listens w' ->
  AwaitResume c text voice ∈ listens w \/
  exists created, e = OnListen text created /\ voice = selectedVoice (ui (app w)).
Proof.
  destruct w as [st ls ss]. intros Hstep Hin.
  destruct e; cbn -[stopPlayback] in Hstep.
  - injection Hstep as <-. by left.
  - injection Hstep as <-. by left.
  - destruct (handleSubmit st). injection Hstep as <-. by left.
  - unfold handleListen in Hstep.
    destruct (isSpeaking (ui st)); [injection Hstep as <-; by left|].
    destruct (isFetchingAudio (ui st)); [injection Hstep as <-; by left|].
    simpl in Hstep.
    destruct (audioContextRef st) as [c0|];
      [destruct (state c0) | destruct created as [c0|err]; [destruct (state c0)|]];
      injection Hstep as <-; simpl in Hin;
      rewrite ?elem_of_app, ?list_elem_of_singleton in Hin;
      try (destruct Hin as [Hin|Hin]; [by left|]); try (by left);
      try done; injection Hin as -> -> ->; right; by eexists.
  - injection Hstep as <-. by left.
  - destruct (nodes st !! source) as [n|]; [|done].
    destruct (playback n); try done.
    destruct (onended n); injection Hstep as <-; by left.
  - destruct (ls !! k) as [task|]; [|done].
    destruct (handleListen_resume task settled outcome st) as [st' next] eqn:Hrun.
    injection Hstep as <-. simpl in Hin.
    apply elem_of_settle in Hin as [Hnext|Hin]; [|by left].
    exfalso. subst next.
    destruct task as [c0 t0 v0|c0|c0 [base64Audio|err]|[audioBuffer|err]];
      simpl in Hrun.
    all: repeat match type of Hrun with
         | context [match ?x with _ => _ end] => destruct x
         end.
    all: by injection Hrun.
  - destruct (ss !! k) as [task|]; [|done].
    destruct (handleSubmit_resume task outcome st). injection Hstep as <-. by left.
Qed.

Lemma ui_reachable_RequestInv w : ui_reachable w -> RequestInv w.
Proof.
  induction 1 as [|w e w' _ (Hvoice & Htasks & Htrace) Hen Hstep].
  - split; [|split].
    + simpl. unfold availableVoices. constructor.
    + intros c text voice Hin. by apply elem_of_nil in Hin.
    + intros text voice Hin. by apply elem_of_nil in Hin.
  - assert (forall text created, e = OnListen text created -> text <> "") as Htext.
    { intros text created ->. simpl in Hen. apply andb_prop in Hen as [Hen _].
      apply bool_decide_eq_true in Hen. by eapply shown_reflection_Some. }
    split; [|split].
    + destruct (step_voice e w w' Hstep) as [->|(value & -> & ->)]; [done|].
      simpl in Hen. apply andb_prop in Hen as [_ Hen].
      by apply bool_decide_eq_true in Hen.
    + intros c text voice Hin.
      destruct (step_resume_tasks e w w' c text voice Hstep Hin)
        as [Hold|(created & He & ->)]; [by eapply Htasks|].
      split; [done | by eapply Htext].
    + intros text voice Hin.
      destruct (step_emits e w w' Hstep) as (es & Hes & Hall).
      rewrite Hes in Hin. apply elem_of_app in Hin as [Hin|Hin]; [by apply Htrace|].
      rewrite Forall_forall in Hall.
      destruct (Hall _ Hin) as [(created & He & ->)|(k & s & o & c & _ & Hk)].
      * split; [done | by eapply Htext].
      * eapply Htasks. by eapply list_elem_of_lookup_2.
Qed.

(** X16. Through the controls of the page, the selected voice is always
    one of the five offered, and every request for speech that was sent
    names one of the five and carries a text that is not empty. *)
Theorem speech_requests_well_formed w :
  ui_reachable w ->
  selectedVoice (ui (app w)) ∈ availableVoices /\
  Forall (fun x => forall text voice, x = GenerateSpeech text voice ->
            voice ∈ availableVoices /\ text <> "")
    (trace (app w)).
Proof.
  intros Hreach. destruct (ui_reachable_RequestInv w Hreach) as (Hvoice & _ & Htrace).
  split; [done|]. apply Forall_forall. intros x Hin text voice ->. by apply Htrace.
Qed.

Lemma speech_requests_well_formed_witness :
  selectedVoice (ui (app (ui_world_after ui_listen_events))) ∈ availableVoices /\
  Forall (fun x => forall text voice, x = GenerateSpeech text voice ->
            voice ∈ availableVoices /\ text <> "")
    (trace (app (ui_world_after ui_listen_events))).
Proof.
  apply (speech_requests_well_formed (ui_world_after ui_listen_events)).
  apply ui_world_after_reachable.
Defined.

(** X17. Through the controls of the page, the voice cannot be changed
    while a request for speech is on its way or while something plays:
    every event the controls allow then leaves the selected voice as it
    is. *)
Theorem voice_fixed_while_busy w e w' :
  ui_reachable w ->
  enabled e w = true ->
  step e w = Some w' ->
  listens w <> [] \/ isSpeaking (ui (app w)) = true ->
  selectedVoice (ui (app w')) = selectedVoice (ui (app w)).
Proof.
  intros Hreach Hen Hstep Hbusy.
  destruct (step_voice e w w' Hstep) as [?|(value & -> & _)]; [done|].
  exfalso. simpl in Hen. apply andb_prop in Hen as [Hen _].
  apply negb_true_iff, orb_false_elim in Hen as [Hidle Hfetch].
  destruct Hbusy as [Hne|Hspeak]; [|congruence].
  destruct (reachable_Inv w (ui_reachable_reachable w Hreach)) as (_ & Hl & _).
  unfold ListenInv in Hl. destruct Hl as [[? _]|(task & _ & ? & _)]; congruence.
Qed.

Lemma voice_fixed_while_busy_witness :
  selectedVoice (ui (app (ui_world_after (ui_listen_events ++ [OnChange "more"]))))
  = selectedVoice (ui (app (ui_world_after ui_listen_events))).
Proof.
  apply (voice_fixed_while_busy (ui_world_after ui_listen_events) (OnChange "more")
           (ui_world_after (ui_listen_events ++ [OnChange "more"]))).
  - apply ui_world_after_reachable.
  - vm_compute; reflexivity.
  - vm_compute; reflexivity.
  - left. vm_compute. discriminate.
Defined.

(** The error changes only in four ways: the two handlers clear it when
    they start, and set their message when they fail. *)
Lemma step_error e w w' :
  step e w = Some w' ->
  error (ui (app w')) = error (ui (app w)) \/
  error (ui (app w')) =
    Some "Sorry, the reflection could not be spoken at this time." \/
  error (ui (app w')) =
    Some "A reflection could not be generated. The engine is offline. Please try again." \/
  (error (ui (app w')) = None /\
   (e = OnSubmit \/ exists text created, e = OnListen text created)).
Proof.
  destruct w as [st ls ss]. intros Hstep.
  destruct e; cbn -[stopPlayback] in Hstep.
  - injection Hstep as <-. by left.
  - injection Hstep as <-. by left.
  - unfold handleSubmit in Hstep. destruct (_ || _);
      injection Hstep as <-; [by left|]. do 3 right. split; [done | by left].
  - unfold handleListen in Hstep.
    destruct (isSpeaking (ui st)).
    { injection Hstep as <-. left. cbn -[stopPlayback]. by rewrite stopPlayback_ui. }
    destruct (isFetchingAudio (ui st)); [injection Hstep as <-; by left|].
    simpl in Hstep.
    destruct (audioContextRef st) as [c|];
      [destruct (state c) | destruct created as [c|err]; [destruct (state c)|]];
      injection Hstep as <-; simpl; eauto 10.
  - injection Hstep as <-. left. cbn -[stopPlayback]. by rewrite stopPlayback_ui.
  - destruct (nodes st !! source) as [n|]; [|done].
    destruct (playback n); try done.
    destruct (onended n); injection Hstep as <-; by left.
  - destruct (ls !! k) as [task|]; [|done].
    destruct (handleListen_resume task settled outcome st) as [st' next] eqn:Hrun.
    injection Hstep as <-.
    destruct task as [c text voice|c|c [base64Audio|err]|[audioBuffer|err]];
      simpl in Hrun.
    all: repeat match type of Hrun with
         | context [match ?x with _ => _ end] => destruct x
         end.
    all: injection Hrun as <- <-; simpl; auto.
  - destruct (ss !! k) as [task|]; [|done].
    destruct (handleSubmit_resume task outcome st) as [st' next] eqn:Hrun.
    injection Hstep as <-.
    destruct task as [|[result|err]]; simpl in Hrun;
      [destruct (geminiService.getReflection outcome)|..];
      injection Hrun as <- <-; simpl; auto.
Qed.

(** X18. An error message stays on the screen until the next submission.
    While it is shown no reflection is, so there is no play button to
    press, and every other event the controls allow leaves an error
    message shown. *)
Theorem error_stays_until_submit w e w' :
  shown_error (ui (app w)) <> None ->
  enabled e w = true ->
  step e w = Some w' ->
  e <> OnSubmit ->
  shown_reflection (ui (app w)) = None /\
  shown_error (ui (app w')) <> None.
Proof.
  intros Hshown Hen Hstep Hne.
  assert (shown_reflection (ui (app w)) = None) as Hhidden.
  { unfold shown_reflection. rewrite (bool_decide_eq_true_2 _ Hshown). simpl.
    by rewrite andb_false_r. }
  split; [done|].
  destruct (step_error e w w' Hstep)
    as [Herr|[Herr|[Herr|(_ & [->|(text & created & ->)])]]];
    unfold shown_error in *; rewrite ?Herr; try done.
  simpl in Hen. apply andb_prop in Hen as [Hen _].
  apply bool_decide_eq_true in Hen. unfold shown_reflection in Hhidden, Hen.
  congruence.
Qed.

Lemma error_stays_until_submit_witness :
  shown_reflection (ui (app (world_after
    (no_audio_events ++ [ListenSettled 0 (Ok ()) (Throw TypeError)])))) = None /\
  shown_error (ui (app (world_after
    (no_audio_events ++ [ListenSettled 0 (Ok ()) (Throw TypeError);
                         OnChange "I feel stuck and tired"])))) <> None.
Proof.
  apply (error_stays_until_submit
           (world_after (no_audio_events ++ [ListenSettled 0 (Ok ()) (Throw TypeError)]))
           (OnChange "I feel stuck and tired")
           (world_after (no_audio_events
              ++ [ListenSettled 0 (Ok ()) (Throw TypeError);
                  OnChange "I feel stuck and tired"]))).
  - vm_compute. discriminate.
  - vm_compute; reflexivity.
  - vm_compute; reflexivity.
  - discriminate.
Defined.

End Lifecycle.

(** ** One handle at a time *)

Module Handles.

Import Platform App Controller.

Ltac solve_quiet :=
  let H := fresh in
  intros ?; split; intros H;
  repeat (apply elem_of_cons in H as [H|H]; [discriminate|]);
  by apply elem_of_nil in H.

Ltac solve_quiet_one :=
  let H := fresh in
  intros H;
  repeat (apply elem_of_cons in H as [H|H]; [discriminate|]);
  by apply elem_of_nil in H.

Lemma quiet_nil : quiet [].
Proof. solve_quiet. Qed.

(** What [stopPlayback] does to graph and trace together. *)
Lemma stopPlayback_graph st :
  (audioSourceRef st = None /\ nodes (stopPlayback st) = nodes st /\
   trace (stopPlayback st) = trace st) \/
  (exists id, audioSourceRef st = Some id /\
     nodes (stopPlayback st) =
       alter (fun n => node_set_connected false (node_stop (node_set_onended false n)))
         id (nodes st) /\
     trace (stopPlayback st) = trace st ++ [Stop id; Disconnect id]).
Proof.
  rewrite stopPlayback_nodes, stopPlayback_trace.
  destruct (audioSourceRef st) as [id|]; [right; by exists id|left].
  by rewrite app_nil_r.
Qed.

(** The four things an event can do to the graph: leave it alone, stop
    and disconnect the source the ref points to, mark the playing source
    as ended, or add a started source. *)
Lemma step_graph e w w' :
  Inv w -> step e w = Some w' ->
  exists es, trace (app w') = trace (app w) ++ es /\
  ((nodes (app w') = nodes (app w) /\ quiet es) \/
   (exists id rest, audioSourceRef (app w) = Some id /\
      nodes (app w') =
        alter (fun n => node_set_connected false (node_stop (node_set_onended false n)))
          id (nodes (app w)) /\
      es = [Stop id; Disconnect id] ++ rest /\ quiet rest) \/
   (exists source n, nodes (app w) !! source = Some n /\ playback n = playing /\
      nodes (app w') = alter (node_set_playback ended) source (nodes (app w)) /\
      es = []) \/
   (exists audioBuffer, isSpeaking (ui (app w)) = false /\
      nodes (app w') = nodes (app w) ++ [started audioBuffer] /\
      audioSourceRef (app w') = Some (length (nodes (app w))) /\
      es = [CreateBufferSource (length (nodes (app w)));
            Connect (length (nodes (app w)));
            Start (length (nodes (app w)))])).
Proof.
  destruct w as [st ls ss]. intros Hinv Hstep.
  assert (forall rest, quiet rest ->
            exists es, trace (stopPlayback st) ++ rest = trace st ++ es /\
            ((nodes (stopPlayback st) = nodes st /\ quiet es) \/
             (exists id rest0, audioSourceRef st = Some id /\
                nodes (stopPlayback st) =
                  alter (fun n => node_set_connected false
                                    (node_stop (node_set_onended false n)))
                    id (nodes st) /\
                es = [Stop id; Disconnect id] ++ rest0 /\ quiet rest0))) as Hstop.
  { intros rest Hrest.
    destruct (stopPlayback_graph st) as [(_ & -> & ->)|(id & Hcur & -> & ->)].
    - exists rest. split; [done|]. by left.
    - exists ([Stop id; Disconnect id] ++ rest). split; [by rewrite <- app_assoc|].
      right. by exists id, rest. }
  destruct e; cbn -[stopPlayback] in Hstep.
  - injection Hstep as <-. exists []. rewrite app_nil_r.
    split; [done|]. left. split; [done | apply quiet_nil].
  - injection Hstep as <-. exists []. rewrite app_nil_r.
    split; [done|]. left. split; [done | apply quiet_nil].
  - destruct (blank (userInput (ui st)) || isLoading (ui st)) eqn:Hguard.
    { unfold handleSubmit in Hstep. rewrite Hguard in Hstep.
      injection Hstep as <-. exists []. rewrite app_nil_r.
      split; [done|]. left. split; [done | apply quiet_nil]. }
    apply orb_false_elim in Hguard as [Hblank Hload].
    destruct (handleSubmit_one_request st Hblank Hload) as (st' & Hrun & Htrace).
    assert (nodes st' = nodes (stopPlayback st)) as Hnodes.
    { unfold handleSubmit in Hrun. rewrite Hblank, Hload in Hrun. simpl in Hrun.
      by injection Hrun as <-. }
    rewrite Hrun in Hstep. injection Hstep as <-. simpl.
    rewrite Htrace, Hnodes.
    destruct (Hstop [GenerateText (userInput (ui st))]) as (es & Hes & Hcase);
      [solve_quiet|].
    exists es. split; [done|]. destruct Hcase as [?|?]; [by left | right; by left].
  - unfold handleListen in Hstep.
    destruct (isSpeaking (ui st)).
    { injection Hstep as <-. cbn -[stopPlayback].
      destruct (Hstop [] quiet_nil) as (es & Hes & Hcase).
      rewrite app_nil_r in Hes. exists es. split; [done|].
      destruct Hcase as [?|?]; [by left | right; by left]. }
    destruct (isFetchingAudio (ui st)).
    { injection Hstep as <-. exists []. rewrite app_nil_r.
      split; [done|]. left. split; [done | apply quiet_nil]. }
    simpl in Hstep.
    destruct (audioContextRef st) as [c|];
      [destruct (state c) | destruct created as [c|err]; [destruct (state c)|]];
      injection Hstep as <-; simpl; rewrite <- ?app_assoc;
      (eexists; split; [reflexivity|]; left; split; [done|solve_quiet]).
  - injection Hstep as <-. cbn -[stopPlayback].
    destruct (Hstop [] quiet_nil) as (es & Hes & Hcase).
    rewrite app_nil_r in Hes. exists es. split; [done|].
    destruct Hcase as [?|?]; [by left | right; by left].
  - destruct (nodes st !! source) as [n|] eqn:Hn; [|done].
    destruct (playback n) eqn:Hp; try done.
    destruct (Ended_Inv _ _ _ _ _ Hinv Hn Hp) as [Hhandler _].
    rewrite Hhandler in Hstep. injection Hstep as <-. simpl.
    exists []. rewrite app_nil_r. split; [done|].
    right. right. left. by exists source, n.
  - destruct (ls !! k) as [task|] eqn:Hk; [|done].
    destruct (pending_listen _ _ _ _ _ Hinv Hk) as (_ & _ & _ & Hidle).
    destruct (handleListen_resume task settled outcome st) as [st' next] eqn:Hrun.
    injection Hstep as <-.
    destruct task as [c text voice|c|c [base64Audio|err]|[audioBuffer|err]];
      simpl in Hrun.
    + destruct settled; injection Hrun as <- <-; simpl;
        (eexists; split; [reflexivity|]; left; split; [done|solve_quiet]).
    + unfold geminiService.getSpokenReflection in Hrun.
      destruct outcome as [response|err]; simpl in Hrun;
        [destruct (geminiService.falsy _)|]; injection Hrun as <- <-; simpl;
        (eexists; split; [reflexivity|]; left; split; [done|solve_quiet]).
    + destruct (decode base64Audio); injection Hrun as <- <-; simpl.
      * exists []. rewrite app_nil_r. split; [done|]. left.
        split; [done | apply quiet_nil].
      * eexists; split; [reflexivity|]; left; split; [done|solve_quiet].
    + injection Hrun as <- <-. simpl.
      eexists; split; [reflexivity|]; left; split; [done|solve_quiet].
    + injection Hrun as <- <-. cbn -[start_source].
      rewrite start_source_trace, start_source_nodes, start_source_ref.
      eexists. split; [reflexivity|]. do 3 right. by exists audioBuffer.
    + injection Hrun as <- <-. simpl.
      eexists; split; [reflexivity|]; left; split; [done|solve_quiet].
  - destruct (ss !! k) as [task|]; [|done].
    destruct (handleSubmit_resume task outcome st) as [st' next] eqn:Hrun.
    injection Hstep as <-.
    destruct task as [|[result|err]]; simpl in Hrun.
    + unfold geminiService.getReflection in Hrun.
      destruct (_ ≫= _); injection Hrun as <- <-; simpl;
        (eexists; split; [reflexivity|]; left; split; [done|solve_quiet]).
    + injection Hrun as <- <-. simpl. exists []. rewrite app_nil_r.
      split; [done|]. left. split; [done | apply quiet_nil].
    + injection Hrun as <- <-. simpl.
      eexists; split; [reflexivity|]; left; split; [done|solve_quiet].
Qed.

Lemma untouched_app tr es id n :
  untouched tr id n -> Stop id ∉ es -> Disconnect id ∉ es ->
  untouched (tr ++ es) id n.
Proof.
  intros (Hc & Hh & Hs & Hd) Hs' Hd'. repeat split; try done.
  - intros [?|?]%elem_of_app; done.
  - intros [?|?]%elem_of_app; done.
Qed.

Lemma released_app tr es id n : released tr id n -> released (tr ++ es) id n.
Proof.
  intros (Hc & Hh & Hs & Hd). repeat split; try done; apply elem_of_app; by left.
Qed.

Lemma history_app tr es id n :
  Stop id ∉ es -> Disconnect id ∉ es ->
  match playback n with
  | unscheduled => False
  | playing | ended => untouched tr id n
  | stopped => released tr id n
  end ->
  match playback n with
  | unscheduled => False
  | playing | ended => untouched (tr ++ es) id n
  | stopped => released (tr ++ es) id n
  end.
Proof.
  intros Hs Hd. destruct (playback n); auto using untouched_app, released_app.
Qed.

Lemma not_in_app (x : Effect) tr es : x ∉ tr -> x ∉ es -> x ∉ tr ++ es.
Proof. intros ? ? [?|?]%elem_of_app; done. Qed.

(** One event keeps the history of every source true. *)
Lemma step_GraphInv e w w' :
  Inv w -> GraphInv (app w) -> step e w = Some w' -> GraphInv (app w').
Proof.
  intros Hinv [Hhist Hnone] Hstep.
  destruct (step_graph e w w' Hinv Hstep) as (es & Htrace & Hcase).
  destruct Hcase
    as [(Hnodes & Hquiet)
       |[(id & rest & Hcur & Hnodes & -> & Hquiet)
        |[(source & n & Hn & Hp & Hnodes & ->)
         |(audioBuffer & Hidle & Hnodes & Hcur & ->)]]];
    split; rewrite Htrace, Hnodes.
  - intros id n Hn. apply history_app; [apply Hquiet..|]. by apply Hhist.
  - intros id Hlen. destruct (Hnone id Hlen).
    split; apply not_in_app; try done; apply Hquiet.
  - destruct Hinv as ([Href _ _ _] & _).
    destruct (Href id Hcur) as (n & Hn & Hp & _).
    intros j m. rewrite list_lookup_alter. case_decide as Hj.
    + subst j. rewrite Hn. simpl. intros [= <-].
      unfold node_stop. simpl. rewrite Hp. simpl. unfold released. simpl.
      split; [done|]. split; [done|].
      rewrite !elem_of_app, !elem_of_cons.
      split; [right; by left | right; right; by left].
    + intros Hm. destruct (Hquiet j) as [Hqs Hqd].
      apply history_app; [| |by apply Hhist].
      * intros Hin. repeat (apply elem_of_cons in Hin as [Hin|Hin]; [congruence|]).
        done.
      * intros Hin. repeat (apply elem_of_cons in Hin as [Hin|Hin]; [congruence|]).
        done.
  - destruct Hinv as ([Href _ _ _] & _).
    destruct (Href id Hcur) as (n & Hn & _).
    apply lookup_lt_Some in Hn.
    intros j Hlen. rewrite length_alter in Hlen. destruct (Hnone j Hlen).
    destruct (Hquiet j) as [Hqs Hqd].
    split; apply not_in_app; try done; intros Hin;
      repeat (apply elem_of_cons in Hin as [Hin|Hin];
              [first [discriminate | injection Hin as ->; lia]|]);
      done.
  - rewrite app_nil_r. intros j m. rewrite list_lookup_alter. case_decide as Hj.
    + subst j. rewrite Hn. simpl. intros [= <-]. simpl.
      specialize (Hhist source n Hn). by rewrite Hp in Hhist.
    + by apply Hhist.
  - rewrite app_nil_r, length_alter. done.
  - intros j m Hm. apply lookup_app_Some in Hm as [Hm|[Hlen Hm]].
    + apply history_app; [solve_quiet_one..|]. by apply Hhist.
    + apply list_lookup_singleton_Some in Hm as [Hj <-]. simpl.
      destruct (Hnone j Hlen). repeat split; try done;
        apply not_in_app; try done; solve_quiet_one.
  - intros j Hlen. rewrite length_app in Hlen. simpl in Hlen.
    destruct (Hnone j ltac:(lia)).
    split; apply not_in_app; try done; solve_quiet_one.
Qed.

Lemma reachable_GraphInv w : reachable w -> GraphInv (app w).
Proof.
  induction 1 as [|w e w' Hreach IH Hstep].
  - split; simpl.
    + intros id n Hn. by rewrite lookup_nil in Hn.
    + intros id _. split; apply not_elem_of_nil.
  - eapply step_GraphInv; [|done..]. by apply reachable_Inv.
Qed.

(** C5, as the code has it. In every reachable state at most one source
    is playing. An event creates a source only out of a state in which
    the ref is empty; the source is created playing, [start()] is in the
    trace and the ref points at it. Every earlier source is then in one
    of two conditions: stopped by [stopPlayback], with its handler
    removed, disconnected, and both [stop()] and [disconnect()] in the
    trace; or ended by itself, in which case it is still connected and
    neither [stop()] nor [disconnect()] was ever called on it. *)
Theorem single_playback_handle w :
  reachable w ->
  (forall i j ni nj,
     nodes (app w) !! i = Some ni -> nodes (app w) !! j = Some nj ->
     playback ni = playing -> playback nj = playing -> i = j) /\
  (forall e w' id n',
     step e w = Some w' ->
     nodes (app w) !! id = None -> nodes (app w') !! id = Some n' ->
     playback n' = playing /\
     audioSourceRef (app w') = Some id /\
     Start id ∈ trace (app w') /\
     audioSourceRef (app w) = None /\
     (forall j m, nodes (app w) !! j = Some m ->
        (playback m = stopped /\ released (trace (app w)) j m) \/
        (playback m = ended /\ untouched (trace (app w)) j m))).
Proof.
  intros Hreach. pose proof (reachable_Inv w Hreach) as Hinv.
  pose proof (reachable_GraphInv w Hreach) as [Hhist _]. split.
  - destruct Hinv as ([_ Hplay _ _] & _).
    intros i j ni nj Hi Hj Hpi Hpj.
    pose proof (Hplay i ni Hi Hpi). pose proof (Hplay j nj Hj Hpj). congruence.
  - intros e w' id n' Hstep Hold Hnew.
    destruct (step_graph e w w' Hinv Hstep) as (es & Htrace & Hcase).
    apply lookup_ge_None in Hold. pose proof (lookup_lt_Some _ _ _ Hnew) as Hlt.
    destruct Hcase
      as [(Hnodes & _)
         |[(cur & rest & _ & Hnodes & _)
          |[(source & n & _ & _ & Hnodes & _)
           |(audioBuffer & Hidle & Hnodes & Hcur & ->)]]];
      rewrite Hnodes, ?length_alter in Hlt; try lia.
    rewrite Hnodes in Hnew.
    apply lookup_app_Some in Hnew as [Hnew|[_ Hnew]];
      [apply lookup_lt_Some in Hnew; lia|].
    apply list_lookup_singleton_Some in Hnew as [Hid <-].
    assert (id = length (nodes (app w))) as -> by lia.
    destruct Hinv as (Ha & _).
    destruct (AudioInv_idle _ Ha Hidle) as [Hnone Hquiet].
    split; [done|]. split; [done|]. split.
    { rewrite Htrace. apply elem_of_app. right. do 2 right. left. }
    split; [done|]. intros j m Hm.
    specialize (Hhist j m Hm). pose proof (Hquiet j m Hm).
    destruct (playback m); try done; auto.
Qed.

Lemma single_playback_handle_witness :
  (forall i j ni nj,
     nodes (app (world_after history_events)) !! i = Some ni ->
     nodes (app (world_after history_events)) !! j = Some nj ->
     playback ni = playing -> playback nj = playing -> i = j) /\
  (forall e w' id n',
     step e (world_after history_events) = Some w' ->
     nodes (app (world_after history_events)) !! id = None ->
     nodes (app w') !! id = Some n' ->
     playback n' = playing /\
     audioSourceRef (app w') = Some id /\
     Start id ∈ trace (app w') /\
     audioSourceRef (app (world_after history_events)) = None /\
     (forall j m, nodes (app (world_after history_events)) !! j = Some m ->
        (playback m = stopped /\
         released (trace (app (world_after history_events))) j m) \/
        (playback m = ended /\
         untouched (trace (app (world_after history_events))) j m))).
Proof.
  apply (single_playback_handle (world_after history_events)).
  apply world_after_reachable.
Defined.

(** C5 as stated fails. After a click that stopped the first source and
    a second source that played to its end, the third source is made and
    started while the second was never stopped nor released: it is still
    connected, and neither [stop()] nor [disconnect()] was called on it,
    before or after. *)
Lemma next_source_after_unreleased_one :
  reachable (world_after history_events) /\
  step (ListenSettled 0 (Ok ()) (Throw TypeError)) (world_after history_events) =
    Some (world_after (history_events ++ [ListenSettled 0 (Ok ()) (Throw TypeError)])) /\
  nodes (app (world_after history_events)) !! 2%nat = None /\
  (exists n', nodes (app (world_after
       (history_events ++ [ListenSettled 0 (Ok ()) (Throw TypeError)]))) !! 2%nat
       = Some n' /\ playback n' = playing) /\
  (exists m, nodes (app (world_after history_events)) !! 1%nat = Some m /\
     playback m = ended /\ connected m = true) /\
  (Stop 1 ∉ trace (app (world_after
     (history_events ++ [ListenSettled 0 (Ok ()) (Throw TypeError)])))) /\
  (Disconnect 1 ∉ trace (app (world_after
     (history_events ++ [ListenSettled 0 (Ok ()) (Throw TypeError)])))).
Proof.
  split; [apply world_after_reachable|].
  split; [vm_compute; reflexivity|].
  split; [vm_compute; reflexivity|].
  split; [eexists; split; vm_compute; reflexivity|].
  split; [eexists; repeat split; vm_compute; reflexivity|].
  pose proof (reachable_GraphInv _ (world_after_reachable
    (history_events ++ [ListenSettled 0 (Ok ()) (Throw TypeError)]))) as [Hhist _].
  specialize (Hhist 1%nat
    {| buffer := Some {| sampleRate := 24000;
                         channels := [[Fin (1 # 32768); Fin (32767 # 32768)]] |};
       connected := true; onended := true; playback := ended |}).
  destruct Hhist as (_ & _ & Hs & Hd); [vm_compute; reflexivity|]. by split.
Qed.

End Handles.
